(** * Fractal: a shallow embedding of [src/fractal.ts]

    The class [Fractal] approximates a target image with a fixed population
    of polygons by hill climbing: every call of [drawFrame] mutates one
    polygon, renders the population, scores the canvas against the target
    and keeps or reverts the mutation.

    Conventions of the embedding.
    - A JavaScript number that holds a real-valued quantity ([lastMatch],
      [maxDifference], the match percentage, the alpha value before it is
      stored) is an IEEE 754 binary64 float: [spec_float] with precision 53
      and maximal exponent 1024, computed with the operations of
      [SpecFloat].
    - A JavaScript number that holds an integer (typed-array elements and
      indices, channel differences, their sum, the counters) is a [Z];
      binary64 arithmetic is exact on integers of magnitude below [2^53],
      which is where these quantities live.  The increment of a counter
      writes the saturation at [2^53] out.  The product of
      [configureDom], whose factors are the sizes of an image, is
      computed in binary64, one product after the other.
    - [Uint8ClampedArray] is [list Z] with stdpp's lookup and insert: a
      read out of range is [undefined], a write out of range is ignored.
    - [Polygon] ([./polygon]) and the canvas are collaborators: the first
      is an interface, the pixels handed back by [getImageData] are inputs
      of each frame. *)

From Stdlib Require Import ZArith List Lia Bool String.
From Stdlib Require Import Floats.SpecFloat.
From stdpp Require Import base list pretty.
From Equations Require Import Equations.
Import ListNotations.

Local Open Scope Z_scope.

(** ** Binary64 numbers *)

Module JS.

Definition prec : Z := 53.
Definition emax : Z := 1024.

Definition float : Type := spec_float.

Definition of_Z (z : Z) : float := binary_normalize prec emax z 0 false.

Definition mul : float -> float -> float := SFmul prec emax.
Definition div : float -> float -> float := SFdiv prec emax.
Definition sub : float -> float -> float := SFsub prec emax.

(** [x > y] is [ltb y x]; a comparison with NaN is false. *)
Definition ltb : float -> float -> bool := SFltb.
Definition leb : float -> float -> bool := SFleb.

Definition is_nan (x : float) : bool :=
  match x with S754_nan => true | _ => false end.

(** The values an expression of [calculateDifference] can take: the loop
    computes on integers, a read past the end of a typed array gives
    [undefined], and arithmetic on [undefined] gives NaN. *)
Inductive num : Type :=
  | Undefined
  | NaN
  | Int (z : Z).

Definition binop (f : Z -> Z -> Z) (x y : num) : num :=
  match x, y with
  | Int a, Int b => Int (f a b)
  | _, _ => NaN
  end.

Definition unop (f : Z -> Z) (x : num) : num :=
  match x with
  | Int a => Int (f a)
  | _ => NaN
  end.

Definition add : num -> num -> num := binop Z.add.
Definition minus : num -> num -> num := binop Z.sub.
Definition neg : num -> num := unop Z.opp.
Definition Math_abs : num -> num := unop Z.abs.

(** ToNumber, into binary64. *)
Definition to_float (x : num) : float :=
  match x with
  | Int z => of_Z z
  | _ => S754_nan
  end.

(** ToUint8Clamp: NaN becomes 0, the value is clamped to [0, 255] and
    rounded to the nearest integer, ties to even. *)
Definition ToUint8Clamp (x : float) : Z :=
  match x with
  | S754_nan => 0
  | S754_zero _ => 0
  | S754_infinity s => if s then 0 else 255
  | S754_finite true _ _ => 0
  | S754_finite false m (Zneg k) =>
      let d := Z.pow_pos 2 k in
      let f := Z.pos m / d in
      let r := Z.pos m mod d in
      if 255 <=? f then 255
      else match 2 * r ?= d with
           | Lt => f
           | Gt => f + 1
           | Eq => if Z.even f then f else f + 1
           end
  | S754_finite false m e => Z.min 255 (Z.pos m * 2 ^ e)
  end.

(** [x++] on a counter that started at 0: exact below [2^53]; at [2^53]
    the sum [2^53 + 1] rounds back to [2^53]. *)
Definition incr (n : Z) : Z := if n <? 2 ^ 53 then n + 1 else n.

End JS.

(** ** Typed arrays *)

Abbreviation Uint8ClampedArray := (list Z).

(** [a[i]] *)
Definition get (a : Uint8ClampedArray) (i : nat) : JS.num :=
  match a !! i with
  | Some b => JS.Int b
  | None => JS.Undefined
  end.

(** [a[i] = v] with [v] already an integer in range. *)
Definition set_byte (a : Uint8ClampedArray) (i : nat) (v : Z) : Uint8ClampedArray :=
  <[i := v]> a.

(** [a[i] = x] for a number [x]. *)
Definition set (a : Uint8ClampedArray) (i : nat) (x : JS.float) : Uint8ClampedArray :=
  <[i := JS.ToUint8Clamp x]> a.

Definition is_bytes (a : Uint8ClampedArray) : Prop :=
  Forall (fun b => 0 <= b <= 255) a.

(** ** calculateDifference *)

(** The alpha value written for a pixel:
    [1/3 * (-differenceR - differenceG - differenceB + 765)]. *)
Definition alpha (differenceR differenceG differenceB : JS.num) : JS.float :=
  JS.mul (JS.div (JS.of_Z 1) (JS.of_Z 3))
         (JS.to_float
            (JS.add (JS.minus (JS.minus (JS.neg differenceR) differenceG)
                              differenceB)
                    (JS.Int 765))).

(** One pass through the body of the [for] loop at index [i]. *)
Definition body (imageData canvasData : Uint8ClampedArray) (i : nat)
    (st : JS.num * Uint8ClampedArray) : JS.num * Uint8ClampedArray :=
  let '(difference, dat) := st in
  let differenceR := JS.Math_abs (JS.minus (get imageData i) (get canvasData i)) in
  let differenceG :=
    JS.Math_abs (JS.minus (get imageData (i + 1)) (get canvasData (i + 1))) in
  let differenceB :=
    JS.Math_abs (JS.minus (get imageData (i + 2)) (get canvasData (i + 2))) in
  let dat := set_byte dat i 0 in
  let dat := set_byte dat (i + 1) 0 in
  let dat := set_byte dat (i + 2) 0 in
  let dat := set dat (i + 3) (alpha differenceR differenceG differenceB) in
  (JS.add difference (JS.add (JS.add differenceR differenceG) differenceB), dat).

(** [for (let i = ...; i < canvasData.length; i += 4) body] *)
Equations for_loop (imageData canvasData : Uint8ClampedArray) (i : nat)
    (st : JS.num * Uint8ClampedArray) : JS.num * Uint8ClampedArray
    by wf (length canvasData - i)%nat lt :=
  for_loop imageData canvasData i st with lt_dec i (length canvasData) := {
    | left _ => for_loop imageData canvasData (i + 4)%nat
                  (body imageData canvasData i st)
    | right _ => st
  }.
Next Obligation. lia. Qed.

(** What [calculateDifference] leaves behind: its return value, the pixels
    it put on the graph canvas (if any) and whether it warned. *)
Record difference_result : Type := {
  returned : JS.num;
  put : option Uint8ClampedArray;
  warned : bool
}.

Definition calculateDifference (imageData canvasData graphData : Uint8ClampedArray)
    : difference_result :=
  if negb (length imageData =? length canvasData)%nat then
    {| returned := JS.Undefined; put := None; warned := true |}
  else
    let '(difference, dat) :=
      for_loop imageData canvasData 0%nat (JS.Int 0, graphData) in
    {| returned := difference; put := Some dat; warned := false |}.


(** ** The collaborators *)

(** [Polygon] as [drawFrame] uses it.  [Entropy] is what one call of
    [mutate] draws from the random source. *)
Class PolygonOps (Polygon : Type) : Type := {
  Entropy : Type;
  stash : Polygon -> Polygon;
  mutate : Entropy -> Z -> Z -> Polygon -> Polygon;
  pop : Polygon -> Polygon
}.

(** A decoded image: its size and the pixels a canvas shows after
    [drawImage]. *)
Record HTMLImageElement : Type := {
  img_width : Z;
  img_height : Z;
  img_data : Uint8ClampedArray
}.

Record HTMLCanvasElement : Type := {
  width : Z;
  height : Z
}.

(** The three elements of [StatsDOM], each with the value last written to
    its [innerHTML] ([match] shows the number through [toFixed(4)]). *)
Inductive stat : Type := stat_match | stat_break | stat_mutations.

Inductive shown : Type :=
  | Count (n : Z)
  | Percent (m : JS.float).

Record StatsDOM : Type := {
  match_element : option shown;
  break_element : option shown;
  mutations_element : option shown
}.

Inductive exn : Type :=
  | TypeError.

Inductive completion (A : Type) : Type :=
  | Normal (a : A)
  | Throw (e : exn).
Arguments Normal {A} a.
Arguments Throw {A} e.

Definition bind {A B : Type} (c : completion A) (k : A -> completion B)
    : completion B :=
  match c with
  | Normal a => k a
  | Throw e => Throw e
  end.

(** ** The class *)

Section Fractal.

Context {Polygon : Type} `{PolygonOps Polygon}.

(** What one call of [drawFrame] receives from outside: the randomness
    [mutate] consumes, the pixels [context.getImageData] returns for the
    stage once the population is drawn, and the pixels
    [graphContext.getImageData] returns for the graph. *)
Record Frame : Type := {
  entropy : Entropy;
  canvasData : Uint8ClampedArray;
  graphData : Uint8ClampedArray
}.

(** The fields of the class, followed by what it writes on the page: the
    pixels put on the graph canvas and the console. *)
Record Fractal : Type := {
  POLYGON_COUNT : nat;
  POLYGON_VERTICES : nat;
  canvas : HTMLCanvasElement;
  polygons : list Polygon;
  nextMutable : nat;
  imageData : Uint8ClampedArray;
  lastMatch : JS.float;
  maxDifference : JS.float;
  stats : StatsDOM;
  mutations : Z;
  breakthroughs : Z;
  graph : HTMLCanvasElement;
  graph_pixels : Uint8ClampedArray;
  console : list string
}.

Definition set_canvas (v : HTMLCanvasElement) (s : Fractal) : Fractal :=
  Build_Fractal (POLYGON_COUNT s) (POLYGON_VERTICES s) v (polygons s)
    (nextMutable s) (imageData s) (lastMatch s) (maxDifference s) (stats s)
    (mutations s) (breakthroughs s) (graph s) (graph_pixels s) (console s).

Definition set_polygons (v : list Polygon) (s : Fractal) : Fractal :=
  Build_Fractal (POLYGON_COUNT s) (POLYGON_VERTICES s) (canvas s) v
    (nextMutable s) (imageData s) (lastMatch s) (maxDifference s) (stats s)
    (mutations s) (breakthroughs s) (graph s) (graph_pixels s) (console s).

Definition set_nextMutable (v : nat) (s : Fractal) : Fractal :=
  Build_Fractal (POLYGON_COUNT s) (POLYGON_VERTICES s) (canvas s) (polygons s)
    v (imageData s) (lastMatch s) (maxDifference s) (stats s)
    (mutations s) (breakthroughs s) (graph s) (graph_pixels s) (console s).

Definition set_imageData (v : Uint8ClampedArray) (s : Fractal) : Fractal :=
  Build_Fractal (POLYGON_COUNT s) (POLYGON_VERTICES s) (canvas s) (polygons s)
    (nextMutable s) v (lastMatch s) (maxDifference s) (stats s)
    (mutations s) (breakthroughs s) (graph s) (graph_pixels s) (console s).

Definition set_lastMatch (v : JS.float) (s : Fractal) : Fractal :=
  Build_Fractal (POLYGON_COUNT s) (POLYGON_VERTICES s) (canvas s) (polygons s)
    (nextMutable s) (imageData s) v (maxDifference s) (stats s)
    (mutations s) (breakthroughs s) (graph s) (graph_pixels s) (console s).

Definition set_maxDifference (v : JS.float) (s : Fractal) : Fractal :=
  Build_Fractal (POLYGON_COUNT s) (POLYGON_VERTICES s) (canvas s) (polygons s)
    (nextMutable s) (imageData s) (lastMatch s) v (stats s)
    (mutations s) (breakthroughs s) (graph s) (graph_pixels s) (console s).

Definition set_stats (v : StatsDOM) (s : Fractal) : Fractal :=
  Build_Fractal (POLYGON_COUNT s) (POLYGON_VERTICES s) (canvas s) (polygons s)
    (nextMutable s) (imageData s) (lastMatch s) (maxDifference s) v
    (mutations s) (breakthroughs s) (graph s) (graph_pixels s) (console s).

Definition set_mutations (v : Z) (s : Fractal) : Fractal :=
  Build_Fractal (POLYGON_COUNT s) (POLYGON_VERTICES s) (canvas s) (polygons s)
    (nextMutable s) (imageData s) (lastMatch s) (maxDifference s) (stats s)
    v (breakthroughs s) (graph s) (graph_pixels s) (console s).

Definition set_breakthroughs (v : Z) (s : Fractal) : Fractal :=
  Build_Fractal (POLYGON_COUNT s) (POLYGON_VERTICES s) (canvas s) (polygons s)
    (nextMutable s) (imageData s) (lastMatch s) (maxDifference s) (stats s)
    (mutations s) v (graph s) (graph_pixels s) (console s).

Definition set_graph (v : HTMLCanvasElement) (s : Fractal) : Fractal :=
  Build_Fractal (POLYGON_COUNT s) (POLYGON_VERTICES s) (canvas s) (polygons s)
    (nextMutable s) (imageData s) (lastMatch s) (maxDifference s) (stats s)
    (mutations s) (breakthroughs s) v (graph_pixels s) (console s).

Definition set_graph_pixels (v : Uint8ClampedArray) (s : Fractal) : Fractal :=
  Build_Fractal (POLYGON_COUNT s) (POLYGON_VERTICES s) (canvas s) (polygons s)
    (nextMutable s) (imageData s) (lastMatch s) (maxDifference s) (stats s)
    (mutations s) (breakthroughs s) (graph s) v (console s).

Definition set_console (v : list string) (s : Fractal) : Fractal :=
  Build_Fractal (POLYGON_COUNT s) (POLYGON_VERTICES s) (canvas s) (polygons s)
    (nextMutable s) (imageData s) (lastMatch s) (maxDifference s) (stats s)
    (mutations s) (breakthroughs s) (graph s) (graph_pixels s) v.

(** [constructor(polygons = 100, vertices = 3)]: an argument left out is
    [None].  The canvases are bound later, by [setContext]. *)
Definition constructor (polygons vertices : option nat) : Fractal :=
  {| POLYGON_COUNT := default 100%nat polygons;
     POLYGON_VERTICES := default 3%nat vertices;
     canvas := {| width := 0; height := 0 |};
     polygons := [];
     nextMutable := 0%nat;
     imageData := [];
     lastMatch := JS.of_Z 0;
     maxDifference := JS.of_Z 1;
     stats := {| match_element := None; break_element := None;
                 mutations_element := None |};
     mutations := 0;
     breakthroughs := 0;
     graph := {| width := 0; height := 0 |};
     graph_pixels := [];
     console := [] |}.

(** [setStat(stat, val)], on the three elements [cacheDomElements] found. *)
Definition setStat (st : stat) (val : shown) (s : Fractal) : Fractal :=
  let d := stats s in
  set_stats
    match st with
    | stat_match =>
        {| match_element := Some val; break_element := break_element d;
           mutations_element := mutations_element d |}
    | stat_break =>
        {| match_element := match_element d; break_element := Some val;
           mutations_element := mutations_element d |}
    | stat_mutations =>
        {| match_element := match_element d; break_element := break_element d;
           mutations_element := Some val |}
    end s.

(** [getImageData(img)]: the image is drawn on a fresh canvas of its size
    and read back. *)
Definition getImageData (img : HTMLImageElement) (s : Fractal) : Fractal :=
  set_imageData (img_data img) s.

(** [configureDom(img)].  [width * height * 3 * 255] is multiplied from
    left to right, each product rounded to binary64. *)
Definition configureDom (img : HTMLImageElement) (s : Fractal) : Fractal :=
  let s := set_canvas {| width := img_width img; height := img_height img |} s in
  let s := set_graph {| width := img_width img; height := img_height img |} s in
  set_maxDifference
    (JS.mul
       (JS.mul
          (JS.mul (JS.of_Z (width (canvas s))) (JS.of_Z (height (canvas s))))
          (JS.of_Z 3))
       (JS.of_Z 255)) s.

(** [generateInitialPolygons()]: [fresh k] is the polygon the [k]-th call
    of [new Polygon(...)] builds from its random points and colour. *)
Definition generateInitialPolygons (fresh : nat -> Polygon) (s : Fractal)
    : list Polygon :=
  map fresh (seq 0 (POLYGON_COUNT s)).

(** [main(img)], up to the point where the timer is started. *)
Definition main (fresh : nat -> Polygon) (img : HTMLImageElement)
    (s : Fractal) : Fractal :=
  let s := configureDom img s in
  set_polygons (generateInitialPolygons fresh s) s.

(** [match(imageUrl)] once the image is loaded. *)
Definition match_ (fresh : nat -> Polygon) (img : HTMLImageElement)
    (s : Fractal) : Fractal :=
  main fresh img (getImageData img s).

(** [calculateDifference()] on the state: the pure computation above, then
    its effects on the page. *)
Definition calculateDifference_on (f : Frame) (s : Fractal) : JS.num * Fractal :=
  let r := calculateDifference (imageData s) (canvasData f) (graphData f) in
  let s := if warned r
           then set_console (console s ++ ["Invalid data comparison"%string]) s
           else s in
  let s := match put r with
           | Some dat => set_graph_pixels dat s
           | None => s
           end in
  (returned r, s).

(** [getMatch()] *)
Definition getMatch (f : Frame) (s : Fractal) : JS.float * Fractal :=
  let '(diff, s) := calculateDifference_on f s in
  (JS.mul (JS.of_Z 100)
          (JS.sub (JS.of_Z 1) (JS.div (JS.to_float diff) (maxDifference s))),
   s).

(** [drawFrame()].  Clearing the stage and drawing the polygons only
    changes the stage canvas, whose pixels come back as [canvasData f]. *)
Definition drawFrame (f : Frame) (s : Fractal) : completion Fractal :=
  match polygons s !! nextMutable s with
  | None => Throw TypeError
  | Some poly =>
      let i := nextMutable s in
      let poly := stash poly in
      let poly := mutate (entropy f) (width (canvas s)) (height (canvas s)) poly in
      let s := set_polygons (<[i := poly]> (polygons s)) s in
      let '(match_, s) := getMatch f s in
      let s :=
        if JS.ltb (lastMatch s) match_ then
          let s := set_lastMatch match_ s in
          let s := set_breakthroughs (JS.incr (breakthroughs s))
                     (setStat stat_break (Count (breakthroughs s)) s) in
          setStat stat_match (Percent match_) s
        else
          set_polygons (<[i := pop poly]> (polygons s)) s in
      let s := set_mutations (JS.incr (mutations s))
                 (setStat stat_mutations (Count (mutations s)) s) in
      let next := S (nextMutable s) in
      Normal (set_nextMutable
                (if (POLYGON_COUNT s <=? next)%nat then 0%nat else next) s)
  end.

(** The timer: [drawFrame] once per frame, in order.  A frame throws
    before it has changed any field, so a run that throws is cut at its
    first such frame. *)
Fixpoint run (fs : list Frame) (s : Fractal) : completion Fractal :=
  match fs with
  | [] => Normal s
  | f :: fs => bind (drawFrame f s) (run fs)
  end.

(** The polygon indices selected by the frames of a run. *)
Fixpoint selected (fs : list Frame) (s : Fractal) : list nat :=
  match fs with
  | [] => []
  | f :: fs =>
      match drawFrame f s with
      | Normal s' => nextMutable s :: selected fs s'
      | Throw _ => []
      end
  end.

(** What holds of the cursor once [main] has filled the population: there
    are [POLYGON_COUNT] polygons and the cursor points at one of them. *)
Definition cursor_ok (s : Fractal) : Prop :=
  length (polygons s) = POLYGON_COUNT s
  /\ (nextMutable s < POLYGON_COUNT s)%nat.

End Fractal.

(** ** The polygon of the specification *)

(** Modelled from the spec: the class [Polygon] of [./polygon], which is
    not among the sources.  A polygon is an ordered list of points and a
    colour, with one slot for a stashed copy; [mutate] replaces one vertex
    or the colour; [pop] restores the stashed copy and does nothing when
    there is none. *)
Module SpecPolygon.

Record Point : Type := { x : Z; y : Z }.

Record RGBA : Type := { red : Z; green : Z; blue : Z; opacity : Z }.

Record t : Type := {
  points : list Point;
  colour : RGBA;
  stashed : option (list Point * RGBA)
}.

Inductive change : Type :=
  | ReplaceVertex (i : nat) (p : Point)
  | ReplaceColour (c : RGBA).

Definition stash (p : t) : t :=
  {| points := points p; colour := colour p;
     stashed := Some (points p, colour p) |}.

Definition mutate (c : change) (maxX maxY : Z) (p : t) : t :=
  match c with
  | ReplaceVertex i q =>
      {| points := <[i := {| x := x q mod maxX; y := y q mod maxY |}]> (points p);
         colour := colour p; stashed := stashed p |}
  | ReplaceColour c =>
      {| points := points p; colour := c; stashed := stashed p |}
  end.

Definition pop (p : t) : t :=
  match stashed p with
  | Some (ps, c) => {| points := ps; colour := c; stashed := stashed p |}
  | None => p
  end.

#[export] Instance ops : PolygonOps t :=
  Build_PolygonOps t change stash mutate pop.

End SpecPolygon.

(** ** The scorer in the words of the specification *)

(** [|a[j] - b[j]|] for one channel. *)
Definition channel_difference (a b : Uint8ClampedArray) (j : nat) : Z :=
  Z.abs (nth j a 0 - nth j b 0).

(** [|ΔR| + |ΔG| + |ΔB|] of pixel [p]; the alpha channel at [4p + 3] is
    left out. *)
Definition pixel_difference (a b : Uint8ClampedArray) (p : nat) : Z :=
  channel_difference a b (4 * p)
  + channel_difference a b (4 * p + 1)
  + channel_difference a b (4 * p + 2).

(** The sum of [f] over the pixels [k, k + n). *)
Fixpoint sum_pixels (f : nat -> Z) (k n : nat) : Z :=
  match n with
  | O => 0
  | S n => f k + sum_pixels f (S k) n
  end.

(** [pixelDifference(targetBuffer, renderedBuffer)] *)
Definition pixelDifference (a b : Uint8ClampedArray) : Z :=
  sum_pixels (pixel_difference a b) 0 (length a / 4)%nat.

(** [matchPercentage(difference, maxDifference)] *)
Definition matchPercentage (difference maxDifference : JS.float) : JS.float :=
  JS.mul (JS.of_Z 100) (JS.sub (JS.of_Z 1) (JS.div difference maxDifference)).

(** A buffer of interleaved RGBA bytes holding [n] pixels. *)
Definition rgba_buffer (n : nat) (a : Uint8ClampedArray) : Prop :=
  length a = (4 * n)%nat /\ is_bytes a.

(** Every red, green and blue byte of [a] is [v]. *)
Definition rgb_all (v : Z) (a : Uint8ClampedArray) : Prop :=
  forall j b, a !! j = Some b -> (j mod 4 <> 3)%nat -> b = v.

(** [x / 3] rounded to the nearest integer, for [0 <= x]. *)
Definition third_rounded (x : Z) : Z := (x + 1) / 3.

(** ** A small run *)

Module Example.

Import SpecPolygon.

Definition triangle (k : nat) : SpecPolygon.t :=
  {| points := [ {| x := 0; y := 0 |}; {| x := Z.of_nat k; y := 0 |};
                 {| x := 0; y := 1 |} ];
     colour := {| red := 255; green := 0; blue := 0; opacity := 1 |};
     stashed := None |}.

Definition img : HTMLImageElement :=
  {| img_width := 1; img_height := 1; img_data := [10; 20; 30; 255] |}.

(** The state in which the timer starts. *)
Definition start : Fractal :=
  match_ triangle img (constructor (Some 2%nat) None).

Definition near : Frame :=
  {| entropy := ReplaceColour {| red := 9; green := 20; blue := 30; opacity := 1 |};
     canvasData := [9; 20; 30; 255];
     graphData := [0; 0; 0; 0] |}.

Definition far : Frame :=
  {| entropy := ReplaceVertex 1 {| x := 5; y := 7 |};
     canvasData := [200; 200; 200; 255];
     graphData := [0; 0; 0; 255] |}.

(** A frame in which the stage hands back two pixels for a one-pixel
    target. *)
Definition resized : Frame :=
  {| entropy := ReplaceVertex 0 {| x := 3; y := 3 |};
     canvasData := [9; 20; 30; 255; 9; 20; 30; 255];
     graphData := [0; 0; 0; 0; 0; 0; 0; 0] |}.

Definition frames : list Frame := [near; far; resized; near].

(** The state after the first frame, which is accepted. *)
Definition after_near : Fractal :=
  Eval vm_compute in
    match run [near] start with
    | Normal s => s
    | Throw _ => start
    end.

(** Two pixels of a target and of a stage, and a graph of that size. *)
Definition target2 : Uint8ClampedArray := [1; 0; 0; 255; 3; 4; 5; 6].
Definition stage2 : Uint8ClampedArray := [0; 0; 0; 255; 10; 20; 30; 40].
Definition graph2 : Uint8ClampedArray := [9; 9; 9; 9; 9; 9; 9; 9].

(** One pixel of target that is one step of red away from the stage. *)
Definition target1 : Uint8ClampedArray := [1; 0; 0; 255].
Definition stage1 : Uint8ClampedArray := [0; 0; 0; 255].
Definition graph1 : Uint8ClampedArray := [0; 0; 0; 0].

(** A black and a white image of one by two pixels, with alpha bytes of
    no particular value. *)
Definition black : Uint8ClampedArray := [0; 0; 0; 7; 0; 0; 0; 9].
Definition white : Uint8ClampedArray := [255; 255; 255; 1; 255; 255; 255; 3].

Definition black_img : HTMLImageElement :=
  {| img_width := 1; img_height := 2; img_data := black |}.

Definition black_start : Fractal :=
  match_ triangle black_img (constructor (Some 2%nat) None).

Definition white_stage : Frame :=
  {| entropy := ReplaceVertex 2 {| x := 1; y := 1 |};
     canvasData := white;
     graphData := graph2 |}.

(** A stage that shows the target of [start]. *)
Definition exact : Frame :=
  {| entropy := ReplaceVertex 2 {| x := 1; y := 1 |};
     canvasData := [10; 20; 30; 255];
     graphData := [0; 0; 0; 0] |}.

End Example.


(** ** Painting the stage *)

(** [Polygon] as [drawPolygon] reads it: the number of its points, the
    argument array [getPointArr(i)] and the colour string. *)
Class PolygonView (Polygon : Type) : Type := {
  PointArr : Type;
  points_length : Polygon -> nat;
  getPointArr : Polygon -> nat -> PointArr;
  getColourString : Polygon -> string
}.

(** The calls [Fractal] makes on a 2D context, [fillStyle = c] among
    them. *)
Inductive call (A : Type) : Type :=
  | set_fillStyle (c : string)
  | fillRect (x y w h : Z)
  | beginPath
  | moveTo (p : A)
  | lineTo (p : A)
  | closePath
  | fill.
Arguments set_fillStyle {A} c.
Arguments fillRect {A} x y w h.
Arguments beginPath {A}.
Arguments moveTo {A} p.
Arguments lineTo {A} p.
Arguments closePath {A}.
Arguments fill {A}.

Section Painting.

Context {Polygon : Type} `{PolygonOps Polygon} `{PolygonView Polygon}.

(** [for (let i = ...; i < points; i++) ctx.lineTo.apply(ctx, polygon.getPointArr(i))] *)
Equations lineTo_loop (polygon : Polygon) (points i : nat)
    : list (call PointArr) by wf (points - i)%nat lt :=
  lineTo_loop polygon points i with lt_dec i points := {
    | left _ => lineTo (getPointArr polygon i)
                :: lineTo_loop polygon points (i + 1)%nat
    | right _ => []
  }.
Next Obligation. lia. Qed.

(** [drawPolygon(polygon)] *)
Definition drawPolygon (polygon : Polygon) : list (call PointArr) :=
  let points := points_length polygon in
  [beginPath; moveTo (getPointArr polygon 0%nat)]
  ++ lineTo_loop polygon points 1%nat
  ++ [closePath; set_fillStyle (getColourString polygon); fill].

(** The calls one [drawFrame] makes on the stage: it is cleared before
    the polygon under the cursor is looked at, and painted once that
    polygon is mutated. *)
Definition stage_calls (f : Frame) (s : Fractal) : list (call PointArr) :=
  [set_fillStyle "#fff"%string;
   fillRect 0 0 (width (canvas s)) (height (canvas s))]
  ++ match polygons s !! nextMutable s with
     | None => []
     | Some poly =>
         let poly := stash poly in
         let poly :=
           mutate (entropy f) (width (canvas s)) (height (canvas s)) poly in
         flat_map drawPolygon (<[nextMutable s := poly]> (polygons s))
     end.

(** The colours handed to [fillStyle], in order. *)
Fixpoint fill_styles (cs : list (call PointArr)) : list string :=
  match cs with
  | [] => []
  | set_fillStyle c :: cs => c :: fill_styles cs
  | _ :: cs => fill_styles cs
  end.

(** The points handed to [moveTo] and [lineTo], in order. *)
Fixpoint path_points (cs : list (call PointArr)) : list PointArr :=
  match cs with
  | [] => []
  | moveTo p :: cs => p :: path_points cs
  | lineTo p :: cs => p :: path_points cs
  | _ :: cs => path_points cs
  end.

(** ** What the page shows *)

(** A counter and the element that displays it: nothing shown and the
    counter at 0, or the element one increment behind the counter. *)
Definition one_behind (shown_value : option shown) (counter : Z) : Prop :=
  (shown_value = None /\ counter = 0)
  \/ exists k, shown_value = Some (Count k) /\ counter = JS.incr k.

Definition page_in_step (s : @Fractal Polygon) : Prop :=
  one_behind (mutations_element (stats s)) (mutations s)
  /\ one_behind (break_element (stats s)) (breakthroughs s)
  /\ (match_element (stats s) = None
      \/ match_element (stats s) = Some (Percent (lastMatch s))).

(** The frame hands back a stage of another size than the target. *)
Definition mismatched (target : Uint8ClampedArray) (f : Frame) : bool :=
  negb (length target =? length (canvasData f))%nat.

End Painting.

(** A reading of the polygon of the specification for [drawPolygon]:
    point [i] as the array of its two coordinates, the colour as a CSS
    string. *)
Module SpecPolygonView.

Import SpecPolygon.

Definition getPointArr (p : SpecPolygon.t) (i : nat) : list Z :=
  match points p !! i with
  | Some q => [x q; y q]
  | None => []
  end.

Definition getColourString (p : SpecPolygon.t) : string :=
  let c := colour p in
  ("rgba(" ++ pretty (red c) ++ "," ++ pretty (green c) ++ ","
   ++ pretty (blue c) ++ "," ++ pretty (opacity c) ++ ")")%string.

#[export] Instance view : PolygonView SpecPolygon.t :=
  Build_PolygonView SpecPolygon.t (list Z)
    (fun p => length (points p)) getPointArr getColourString.

End SpecPolygonView.

(** More of the small run. *)
Module Example2.

Import SpecPolygon Example.

(** After [near] is accepted, [far] is rejected on polygon 1 and the
    resized stage is rejected on polygon 0: both polygons have been
    popped, the cursor is on polygon 1. *)
Definition after_three : Fractal :=
  Eval vm_compute in
    match run [near; far; resized] start with
    | Normal s => s
    | Throw _ => start
    end.

(** After [near] is accepted and [far] is rejected. *)
Definition after_two : Fractal :=
  Eval vm_compute in
    match run [near; far] start with
    | Normal s => s
    | Throw _ => start
    end.

(** [after_near] with the black image matched on it, and the state one
    frame later. *)
Definition rematched : Fractal :=
  Eval vm_compute in match_ triangle black_img after_near.

Definition after_rematch : Fractal :=
  Eval vm_compute in
    match run [white_stage] rematched with
    | Normal s => s
    | Throw _ => start
    end.

(** Polygon 1 of [after_three]: popped once, so that what it has stashed
    is what it is. *)
Definition popped : SpecPolygon.t :=
  Eval vm_compute in
    match polygons after_three !! 1%nat with
    | Some p => p
    | None => triangle 1
    end.

End Example2.

(** * Properties *)

(** ** Binary64 facts *)

Section Binary64.

Lemma ltb_leb (x y : JS.float) : JS.ltb x y = true -> JS.leb x y = true.
Proof.
  unfold JS.ltb, JS.leb, SFltb, SFleb.
  destruct (SFcompare x y) as [[]|]; congruence.
Qed.

Lemma ltb_not_nan (x y : JS.float) :
  JS.ltb x y = true -> JS.is_nan y = false.
Proof.
  unfold JS.ltb, SFltb.
  destruct x, y; simpl; congruence.
Qed.

Lemma ltb_nan_r (x : JS.float) : JS.ltb x S754_nan = false.
Proof. destruct x; reflexivity. Qed.

Lemma compare_refl (x : JS.float) :
  JS.is_nan x = false -> SFcompare x x = Some Eq.
Proof.
  destruct x as [s|s| |s m e]; simpl; intros Hx; try discriminate;
    destruct s; try reflexivity;
    rewrite Z.compare_refl, Pos.compare_cont_refl; reflexivity.
Qed.

Lemma leb_refl (x : JS.float) : JS.is_nan x = false -> JS.leb x x = true.
Proof.
  intros Hx. unfold JS.leb, SFleb. rewrite (compare_refl x Hx). reflexivity.
Qed.

Lemma ltb_irrefl (x : JS.float) : JS.ltb x x = false.
Proof.
  unfold JS.ltb, SFltb. destruct (JS.is_nan x) eqn:Hx.
  - destruct x; try discriminate. reflexivity.
  - rewrite (compare_refl x Hx). reflexivity.
Qed.

(** A float equal to [y] in the sense of [===] is not below it. *)
Lemma eqb_not_ltb (x y : JS.float) : SFeqb x y = true -> JS.ltb x y = false.
Proof.
  unfold SFeqb, JS.ltb, SFltb.
  destruct (SFcompare x y) as [[]|]; congruence.
Qed.

(** [x / x] is 1 for every finite [x] other than zero. *)
Lemma div_self (s : bool) (m : positive) (e : Z) :
  JS.div (S754_finite s m e) (S754_finite s m e) = JS.of_Z 1.
Proof.
  unfold JS.div, SFdiv, SFdiv_core_binary.
  rewrite !Z.sub_diag, xorb_nilpotent.
  change (Z.min (fexp JS.prec JS.emax 0) 0) with (-53).
  change (0 - -53) with 53.
  cbv iota beta.
  rewrite Z.shiftl_mul_pow2 by lia.
  destruct (Z.div_eucl (Z.pos m * 2 ^ 53) (Z.pos m)) as [q r] eqn:E.
  assert (Hq : q = 2 ^ 53).
  { change q with (fst (q, r)). rewrite <- E.
    change (fst (Z.div_eucl (Z.pos m * 2 ^ 53) (Z.pos m)))
      with (Z.pos m * 2 ^ 53 / Z.pos m).
    rewrite Z.mul_comm. apply Z.div_mul. lia. }
  assert (Hr : r = 0).
  { change r with (snd (q, r)). rewrite <- E.
    change (snd (Z.div_eucl (Z.pos m * 2 ^ 53) (Z.pos m)))
      with ((Z.pos m * 2 ^ 53) mod Z.pos m).
    rewrite Z.mul_comm. apply Z.mod_mul. lia. }
  subst q r.
  unfold new_location, new_location_even, new_location_odd.
  destruct (Z.even (Z.pos m)); vm_compute; reflexivity.
Qed.

Lemma digits2_pos_lower (p : positive) :
  2 ^ (Z.pos (digits2_pos p) - 1) <= Z.pos p.
Proof.
  induction p as [p IH|p IH|]; simpl digits2_pos.
  - rewrite Pos2Z.inj_succ.
    replace (Z.succ (Z.pos (digits2_pos p)) - 1)
      with (Z.succ (Z.pos (digits2_pos p) - 1)) by lia.
    rewrite Z.pow_succ_r by lia. lia.
  - rewrite Pos2Z.inj_succ.
    replace (Z.succ (Z.pos (digits2_pos p)) - 1)
      with (Z.succ (Z.pos (digits2_pos p) - 1)) by lia.
    rewrite Z.pow_succ_r by lia. lia.
  - simpl. lia.
Qed.

Lemma digits2_pos_iter_xO (p k : positive) :
  digits2_pos (Pos.iter xO p k) = (digits2_pos p + k)%positive.
Proof.
  induction k as [|k IH] using Pos.peano_ind.
  - simpl. lia.
  - rewrite Pos.iter_succ. simpl. rewrite IH. lia.
Qed.

(** A mantissa of 53 bits with an exponent in range is already rounded. *)
Lemma round_aux_canonical (m : positive) (e : Z) :
  Z.pos (digits2_pos m) = 53 -> -1074 <= e <= 971 ->
  binary_round_aux JS.prec JS.emax false (Z.pos m) e loc_Exact
  = S754_finite false m e.
Proof.
  intros Hd He.
  assert (Hs : forall l, shr_fexp JS.prec JS.emax (Z.pos m) e l
                         = (shr_record_of_loc (Z.pos m) l, e)).
  { intros l. unfold shr_fexp. simpl Zdigits2. rewrite Hd.
    unfold fexp, emin, JS.prec, JS.emax.
    replace (Z.max (53 + e - 53) (3 - 1024 - 53) - e) with 0 by lia.
    reflexivity. }
  unfold binary_round_aux. rewrite Hs. simpl. rewrite Hs. simpl.
  unfold JS.emax, JS.prec.
  destruct (e <=? 1024 - 53) eqn:E; [reflexivity | lia].
Qed.

(** Positive integers below [2^53] convert to positive finite floats. *)
Lemma of_Z_finite (n : Z) :
  0 < n < 2 ^ 53 -> exists m e, JS.of_Z n = S754_finite false m e.
Proof.
  intros [Hpos Hlt]. destruct n as [|p|p]; try lia.
  assert (Hd : Z.pos (digits2_pos p) <= 53).
  { pose proof (digits2_pos_lower p) as Hl.
    destruct (Z_le_gt_dec (Z.pos (digits2_pos p)) 53) as [|Hgt]; [assumption|].
    assert (2 ^ 53 <= 2 ^ (Z.pos (digits2_pos p) - 1))
      by (apply Z.pow_le_mono_r; lia).
    lia. }
  assert (Hf : fexp JS.prec JS.emax (Z.pos (digits2_pos p) + 0)
               = Z.pos (digits2_pos p) - 53).
  { unfold fexp, emin, JS.prec, JS.emax. lia. }
  unfold JS.of_Z, binary_normalize, binary_round, shl_align.
  rewrite Hf, Z.sub_0_r.
  destruct (Z.pos (digits2_pos p) - 53) as [|k|k] eqn:Ek; try lia.
  - exists p, 0. apply round_aux_canonical; lia.
  - exists (Pos.iter xO p k), (Z.neg k).
    apply round_aux_canonical.
    + rewrite digits2_pos_iter_xO. lia.
    + lia.
Qed.

(** [100 * (1 - 0 / max)] is 100 for every positive [max]. *)
Lemma percentage_of_zero (max : JS.float) :
  JS.ltb (JS.of_Z 0) max = true ->
  JS.mul (JS.of_Z 100) (JS.sub (JS.of_Z 1) (JS.div (JS.of_Z 0) max))
  = JS.of_Z 100.
Proof.
  destruct max as [s|s| |s m e]; simpl; intros Hm; try discriminate;
    destruct s; try discriminate; vm_compute; reflexivity.
Qed.

End Binary64.

(** ** Exact products *)

Section Exact.

Local Open Scope Z_scope.

Lemma digits2_pos_upper (p : positive) :
  Z.pos p < 2 ^ Z.pos (digits2_pos p).
Proof.
  induction p as [p IH|p IH|]; simpl digits2_pos.
  - rewrite Pos2Z.inj_succ, Z.pow_succ_r by lia. lia.
  - rewrite Pos2Z.inj_succ, Z.pow_succ_r by lia. lia.
  - reflexivity.
Qed.

(** The number of bits of a positive integer is fixed by the powers of
    two around it. *)
Lemma digits2_pos_unique (p : positive) (d : Z) :
  2 ^ (d - 1) <= Z.pos p < 2 ^ d -> Z.pos (digits2_pos p) = d.
Proof.
  intros [Hl Hu].
  pose proof (digits2_pos_lower p) as Hl'.
  pose proof (digits2_pos_upper p) as Hu'.
  assert (Hd : 0 < d).
  { destruct (Z_lt_le_dec 0 d) as [|Hn]; [assumption|].
    rewrite Z.pow_neg_r in Hl by lia.
    destruct (Z.eq_dec d 0) as [->|]; [simpl in Hu; lia|].
    rewrite Z.pow_neg_r in Hu by lia. lia. }
  destruct (Z.lt_trichotomy (Z.pos (digits2_pos p)) d) as [H|[H|H]];
    [|assumption|].
  - assert (2 ^ Z.pos (digits2_pos p) <= 2 ^ (d - 1))
      by (apply Z.pow_le_mono_r; lia). lia.
  - assert (2 ^ d <= 2 ^ (Z.pos (digits2_pos p) - 1))
      by (apply Z.pow_le_mono_r; lia). lia.
Qed.

Lemma iter_pos_nat {A : Type} (f : A -> A) (p : positive) (x : A) :
  SpecFloat.iter_pos f p x = Nat.iter (Pos.to_nat p) f x.
Proof.
  revert x. induction p as [p IH|p IH|]; intros x; simpl SpecFloat.iter_pos.
  - rewrite !IH, Pos2Nat.inj_xI.
    replace (S (2 * Pos.to_nat p))%nat
      with (Pos.to_nat p + (Pos.to_nat p + 1))%nat by lia.
    rewrite !Nat.iter_add. reflexivity.
  - rewrite !IH, Pos2Nat.inj_xO.
    replace (2 * Pos.to_nat p)%nat
      with (Pos.to_nat p + Pos.to_nat p)%nat by lia.
    rewrite Nat.iter_add. reflexivity.
  - reflexivity.
Qed.

Lemma shr_1_even (y : Z) :
  0 <= y ->
  shr_1 {| shr_m := 2 * y; shr_r := false; shr_s := false |}
  = {| shr_m := y; shr_r := false; shr_s := false |}.
Proof. intros Hy. destruct y as [|q|q]; try lia; reflexivity. Qed.

Lemma iter_shr_1_exact (n : nat) (y : Z) :
  0 <= y ->
  Nat.iter n shr_1
    {| shr_m := y * 2 ^ Z.of_nat n; shr_r := false; shr_s := false |}
  = {| shr_m := y; shr_r := false; shr_s := false |}.
Proof.
  intros Hy. induction n as [|n IH].
  - simpl. rewrite Z.mul_1_r. reflexivity.
  - rewrite Nat.iter_succ_r.
    rewrite Nat2Z.inj_succ, Z.pow_succ_r by lia.
    replace (y * (2 * 2 ^ Z.of_nat n)) with (2 * (y * 2 ^ Z.of_nat n)) by lia.
    rewrite shr_1_even by (apply Z.mul_nonneg_nonneg; lia).
    exact IH.
Qed.

(** A mantissa of 53 bits followed by [k] zero bits rounds to itself. *)
Lemma round_aux_shifted (x : positive) (k e : Z) :
  Z.pos (digits2_pos x) = 53 -> 0 <= k -> -1074 <= e <= 971 ->
  binary_round_aux JS.prec JS.emax false (Z.pos x * 2 ^ k) (e - k) loc_Exact
  = S754_finite false x e.
Proof.
  intros Hd Hk He.
  destruct (Z.eq_dec k 0) as [->|Hk0].
  { rewrite Z.mul_1_r, Z.sub_0_r. apply round_aux_canonical; assumption. }
  assert (Hpos : 0 < Z.pos x * 2 ^ k) by (apply Z.mul_pos_pos; lia).
  destruct (Z.pos x * 2 ^ k) as [|M|M] eqn:EM; try lia.
  assert (HdM : Z.pos (digits2_pos M) = 53 + k).
  { apply digits2_pos_unique. rewrite <- EM.
    pose proof (digits2_pos_lower x) as Hl.
    pose proof (digits2_pos_upper x) as Hu.
    rewrite Hd in Hl, Hu.
    replace (53 + k - 1) with (52 + k) by lia.
    rewrite !Z.pow_add_r by lia. simpl (53 - 1) in Hl. nia. }
  assert (Hs : shr_fexp JS.prec JS.emax (Z.pos M) (e - k) loc_Exact
               = ({| shr_m := Z.pos x; shr_r := false; shr_s := false |}, e)).
  { unfold shr_fexp. simpl Zdigits2. rewrite HdM.
    unfold fexp, emin, JS.prec, JS.emax.
    replace (Z.max (53 + k + (e - k) - 53) (3 - 1024 - 53) - (e - k))
      with k by lia.
    destruct k as [|kp|kp]; try lia.
    unfold shr. f_equal; [|lia].
    rewrite iter_pos_nat. simpl shr_record_of_loc. rewrite <- EM.
    rewrite <- (positive_nat_Z kp).
    apply iter_shr_1_exact. lia. }
  unfold binary_round_aux. rewrite Hs. simpl shr_m. simpl loc_of_shr_record.
  simpl round_nearest_even.
  assert (Hs2 : shr_fexp JS.prec JS.emax (Z.pos x) e loc_Exact
                = ({| shr_m := Z.pos x; shr_r := false; shr_s := false |}, e)).
  { unfold shr_fexp. simpl Zdigits2. rewrite Hd.
    unfold fexp, emin, JS.prec, JS.emax.
    replace (Z.max (53 + e - 53) (3 - 1024 - 53) - e) with 0 by lia.
    reflexivity. }
  rewrite Hs2. simpl shr_m. unfold JS.emax, JS.prec.
  destruct (e <=? 1024 - 53) eqn:E; [reflexivity | lia].
Qed.

Lemma pos_iter_xO (p k : positive) :
  Z.pos (Pos.iter xO p k) = Z.pos p * 2 ^ Z.pos k.
Proof.
  induction k as [|k IH] using Pos.peano_ind.
  - simpl. lia.
  - rewrite Pos.iter_succ, Pos2Z.inj_xO, IH, Pos2Z.inj_succ, Z.pow_succ_r by lia.
    lia.
Qed.

(** The float of a positive integer below [2^53]: its bits moved up to
    fill the 53 bits of the mantissa. *)
Lemma of_Z_exact (n : Z) :
  0 < n < 2 ^ 53 ->
  exists m,
    JS.of_Z n = S754_finite false m (Zdigits2 n - 53)
    /\ Z.pos m = n * 2 ^ (53 - Zdigits2 n)
    /\ Z.pos (digits2_pos m) = 53
    /\ 1 <= Zdigits2 n <= 53.
Proof.
  intros [Hpos Hlt]. destruct n as [|p|p]; try lia. simpl Zdigits2.
  assert (Hd : Z.pos (digits2_pos p) <= 53).
  { pose proof (digits2_pos_lower p) as Hl.
    destruct (Z_le_gt_dec (Z.pos (digits2_pos p)) 53) as [|Hgt]; [assumption|].
    assert (2 ^ 53 <= 2 ^ (Z.pos (digits2_pos p) - 1))
      by (apply Z.pow_le_mono_r; lia).
    lia. }
  assert (Hf : fexp JS.prec JS.emax (Z.pos (digits2_pos p) + 0)
               = Z.pos (digits2_pos p) - 53).
  { unfold fexp, emin, JS.prec, JS.emax. lia. }
  unfold JS.of_Z, binary_normalize, binary_round, shl_align.
  rewrite Hf, Z.sub_0_r.
  destruct (Z.pos (digits2_pos p) - 53) as [|k|k] eqn:Ek; try lia.
  - exists p. replace (53 - Z.pos (digits2_pos p)) with 0 by lia.
    rewrite Z.mul_1_r.
    repeat split; try lia. apply round_aux_canonical; lia.
  - exists (Pos.iter xO p k).
    replace (53 - Z.pos (digits2_pos p)) with (Z.pos k) by lia.
    assert (Hdk : Z.pos (digits2_pos (Pos.iter xO p k)) = 53)
      by (rewrite digits2_pos_iter_xO; lia).
    repeat split; try lia.
    + apply round_aux_canonical; [exact Hdk | lia].
    + apply pos_iter_xO.
Qed.

(** The product of two positive integers is exact in binary64 when it is
    below [2^53]. *)
Lemma mul_exact (a b : Z) :
  0 < a -> 0 < b -> a * b < 2 ^ 53 ->
  JS.mul (JS.of_Z a) (JS.of_Z b) = JS.of_Z (a * b).
Proof.
  intros Ha Hb Hab.
  assert (Hc : 0 < a * b) by (apply Z.mul_pos_pos; assumption).
  destruct (of_Z_exact a) as (ma & -> & Hma & Hda & Ra); [nia|].
  destruct (of_Z_exact b) as (mb & -> & Hmb & Hdb & Rb); [nia|].
  destruct (of_Z_exact (a * b)) as (mc & -> & Hmc & Hdc & Rc); [nia|].
  set (da := Zdigits2 a) in *. set (db := Zdigits2 b) in *.
  set (dc := Zdigits2 (a * b)) in *.
  unfold JS.mul, SFmul. simpl xorb.
  assert (Hk : 0 <= 53 + dc - da - db).
  { destruct a as [|pa|pa]; try lia. destruct b as [|pb|pb]; try lia.
    simpl in da, db, dc.
    pose proof (digits2_pos_lower pa) as La. fold da in La.
    pose proof (digits2_pos_lower pb) as Lb. fold db in Lb.
    pose proof (digits2_pos_upper (pa * pb)) as Uc.
    change (Z.pos (digits2_pos (pa * pb))) with dc in Uc.
    rewrite Pos2Z.inj_mul in Uc.
    assert (2 ^ (da - 1) * 2 ^ (db - 1) <= Z.pos pa * Z.pos pb) by nia.
    rewrite <- Z.pow_add_r in H by lia.
    assert (da - 1 + (db - 1) < dc).
    { apply (Z.pow_lt_mono_r_iff 2); lia. }
    lia. }
  rewrite Pos2Z.inj_mul, Hma, Hmb.
  replace (a * 2 ^ (53 - da) * (b * 2 ^ (53 - db)))
    with (Z.pos mc * 2 ^ (53 + dc - da - db)).
  - replace (da - 53 + (db - 53)) with (dc - 53 - (53 + dc - da - db)) by lia.
    apply round_aux_shifted; try assumption; lia.
  - rewrite Hmc.
    replace (a * b * 2 ^ (53 - dc) * 2 ^ (53 + dc - da - db))
      with (a * b * (2 ^ (53 - dc) * 2 ^ (53 + dc - da - db))) by ring.
    rewrite <- Z.pow_add_r by lia.
    replace (a * 2 ^ (53 - da) * (b * 2 ^ (53 - db)))
      with (a * b * (2 ^ (53 - da) * 2 ^ (53 - db))) by ring.
    rewrite <- Z.pow_add_r by lia.
    do 2 f_equal. lia.
Qed.

(** [width * height * 3 * 255] as [configureDom] computes it is the
    exact product while that is below [2^53]. *)
Lemma maxDifference_product_exact (w h : Z) :
  0 < w -> 0 < h -> w * h * 3 * 255 < 2 ^ 53 ->
  JS.mul (JS.mul (JS.mul (JS.of_Z w) (JS.of_Z h)) (JS.of_Z 3)) (JS.of_Z 255)
  = JS.of_Z (w * h * 3 * 255).
Proof.
  intros Hw Hh Hlt.
  assert (Hwh : 0 < w * h) by (apply Z.mul_pos_pos; assumption).
  rewrite (mul_exact w h) by lia.
  rewrite (mul_exact (w * h) 3) by lia.
  rewrite (mul_exact (w * h * 3) 255) by lia.
  reflexivity.
Qed.

End Exact.

(** ** The loop of [calculateDifference] *)

Section Loop.

Local Open Scope nat_scope.

Lemma for_loop_eq (a b : Uint8ClampedArray) (i : nat)
    (st : JS.num * Uint8ClampedArray) :
  for_loop a b i st
  = if lt_dec i (length b)
    then for_loop a b (i + 4) (body a b i st) else st.
Proof.
  rewrite for_loop_equation_1.
  destruct (lt_dec i (length b)); reflexivity.
Qed.

Lemma get_in_range (a : Uint8ClampedArray) (j : nat) :
  j < length a -> get a j = JS.Int (nth j a 0%Z).
Proof.
  intros Hj. unfold get.
  destruct (a !! j) as [v|] eqn:E.
  - rewrite (nth_lookup_Some _ _ 0%Z _ E). reflexivity.
  - apply lookup_ge_None in E. lia.
Qed.

(** The body on a pixel that both buffers hold. *)
Lemma body_pixel (a b : Uint8ClampedArray) (k : nat) (d : Z)
    (dat : Uint8ClampedArray) :
  4 * k + 3 < length a -> 4 * k + 3 < length b ->
  body a b (4 * k) (JS.Int d, dat)
  = (JS.Int (d + pixel_difference a b k),
     set (set_byte (set_byte (set_byte dat (4 * k) 0) (4 * k + 1) 0)
            (4 * k + 2) 0)
         (4 * k + 3)
         (JS.mul (JS.div (JS.of_Z 1) (JS.of_Z 3))
                 (JS.of_Z (765 - pixel_difference a b k)))).
Proof.
  intros Ha Hb. unfold body, alpha.
  rewrite !get_in_range by lia.
  unfold JS.Math_abs, JS.minus, JS.neg, JS.add, JS.binop, JS.unop, JS.to_float.
  cbv beta iota.
  unfold pixel_difference, channel_difference.
  do 4 f_equal. lia.
Qed.

Lemma for_loop_difference (a b : Uint8ClampedArray) (n : nat) :
  length a = 4 * n -> length b = 4 * n ->
  forall m k d dat, k + m = n ->
    fst (for_loop a b (4 * k) (JS.Int d, dat))
    = JS.Int (d + sum_pixels (pixel_difference a b) k m).
Proof.
  intros Ha Hb m.
  induction m as [|m IH]; intros k d dat Hk; rewrite for_loop_eq.
  - destruct (lt_dec (4 * k) (length b)); [lia|].
    simpl. f_equal. lia.
  - destruct (lt_dec (4 * k) (length b)); [|lia].
    rewrite body_pixel by lia.
    replace (4 * k + 4) with (4 * S k) by lia.
    rewrite IH by lia. simpl sum_pixels. f_equal. lia.
Qed.

(** One third of a value in [[0, 765]], as the typed array stores it. *)
Lemma alpha_stored (x : Z) :
  (0 <= x <= 765)%Z ->
  JS.ToUint8Clamp (JS.mul (JS.div (JS.of_Z 1) (JS.of_Z 3)) (JS.of_Z x))
  = third_rounded x.
Proof.
  intros Hx.
  assert (Hall : forallb
            (fun k => (JS.ToUint8Clamp
                         (JS.mul (JS.div (JS.of_Z 1) (JS.of_Z 3))
                                 (JS.of_Z (Z.of_nat k)))
                       =? third_rounded (Z.of_nat k))%Z)
            (seq 0 766) = true) by (vm_compute; reflexivity).
  rewrite forallb_forall in Hall.
  specialize (Hall (Z.to_nat x)).
  rewrite Z2Nat.id in Hall by lia.
  apply Z.eqb_eq, Hall, in_seq. lia.
Qed.

Lemma pixel_difference_range (a b : Uint8ClampedArray) (p : nat) :
  is_bytes a -> is_bytes b ->
  4 * p + 3 < length a -> 4 * p + 3 < length b ->
  (0 <= pixel_difference a b p <= 765)%Z.
Proof.
  intros Ha Hb La Lb.
  assert (Hin : forall (c : Uint8ClampedArray) j,
             is_bytes c -> j < length c -> (0 <= nth j c 0%Z <= 255)%Z).
  { intros c j Hc Hj. unfold is_bytes in Hc.
    rewrite Forall_forall in Hc. apply Hc.
    apply list_elem_of_In, nth_In, Hj. }
  unfold pixel_difference, channel_difference.
  pose proof (Hin a (4 * p) Ha ltac:(lia)).
  pose proof (Hin a (4 * p + 1) Ha ltac:(lia)).
  pose proof (Hin a (4 * p + 2) Ha ltac:(lia)).
  pose proof (Hin b (4 * p) Hb ltac:(lia)).
  pose proof (Hin b (4 * p + 1) Hb ltac:(lia)).
  pose proof (Hin b (4 * p + 2) Hb ltac:(lia)).
  lia.
Qed.

(** What the loop leaves in [dat]: the pixels before [k] as they were,
    every pixel from [k] on overwritten. *)
Lemma for_loop_dat (a b : Uint8ClampedArray) (n : nat) :
  rgba_buffer n a -> rgba_buffer n b ->
  forall m k d dat, k + m = n -> length dat = 4 * n ->
    let dat' := snd (for_loop a b (4 * k) (JS.Int d, dat)) in
    length dat' = 4 * n
    /\ (forall j, j < 4 * k -> dat' !! j = dat !! j)
    /\ (forall p, k <= p < n ->
          dat' !! (4 * p) = Some 0%Z
          /\ dat' !! (4 * p + 1) = Some 0%Z
          /\ dat' !! (4 * p + 2) = Some 0%Z
          /\ dat' !! (4 * p + 3)
             = Some (third_rounded (765 - pixel_difference a b p))).
Proof.
  intros [Ha Ba] [Hb Bb] m.
  induction m as [|m IH]; intros k d dat Hk Hdat; rewrite for_loop_eq.
  - destruct (lt_dec (4 * k) (length b)); [lia|].
    simpl. split; [assumption|]. split; [reflexivity|]. intros p Hp. lia.
  - destruct (lt_dec (4 * k) (length b)); [|lia].
    rewrite body_pixel by lia.
    replace (4 * k + 4) with (4 * S k) by lia.
    unfold set, set_byte.
    rewrite alpha_stored
      by (pose proof (pixel_difference_range a b k Ba Bb
                        ltac:(lia) ltac:(lia)); lia).
    match goal with
    | |- context [for_loop a b (4 * S k) (JS.Int ?d', ?dat1)] =>
        assert (Hdat1 : length dat1 = 4 * n)
          by (rewrite !length_insert; exact Hdat);
        specialize (IH (S k) d' dat1 ltac:(lia) Hdat1)
    end.
    destruct IH as (Hlen & Hbefore & Hafter).
    split; [exact Hlen|]. split.
    + intros j Hj. rewrite Hbefore by lia.
      rewrite !list_lookup_insert_ne by lia. reflexivity.
    + intros p Hp. destruct (decide (p = k)) as [->|Hne].
      * rewrite !Hbefore by lia.
        repeat split.
        -- rewrite !list_lookup_insert_ne by lia.
           apply list_lookup_insert_eq. lia.
        -- rewrite !list_lookup_insert_ne by lia.
           apply list_lookup_insert_eq. rewrite !length_insert. lia.
        -- rewrite !list_lookup_insert_ne by lia.
           apply list_lookup_insert_eq. rewrite !length_insert. lia.
        -- apply list_lookup_insert_eq. rewrite !length_insert. lia.
      * apply Hafter. lia.
Qed.

Lemma calculateDifference_mismatch (a b g : Uint8ClampedArray) :
  length a <> length b ->
  calculateDifference a b g
  = {| returned := JS.Undefined; put := None; warned := true |}.
Proof.
  intros Hne. unfold calculateDifference.
  destruct (length a =? length b) eqn:E; [|reflexivity].
  apply Nat.eqb_eq in E. contradiction.
Qed.

Lemma calculateDifference_equal (a b g : Uint8ClampedArray) :
  length a = length b ->
  calculateDifference a b g
  = {| returned := fst (for_loop a b 0 (JS.Int 0, g));
       put := Some (snd (for_loop a b 0 (JS.Int 0, g)));
       warned := false |}.
Proof.
  intros He. unfold calculateDifference.
  rewrite He, Nat.eqb_refl. simpl.
  destruct (for_loop a b 0 (JS.Int 0, g)). reflexivity.
Qed.

Lemma calculateDifference_returned (a b g : Uint8ClampedArray) (n : nat) :
  length a = 4 * n -> length b = 4 * n ->
  returned (calculateDifference a b g) = JS.Int (pixelDifference a b).
Proof.
  intros Ha Hb. rewrite calculateDifference_equal by lia. simpl.
  change 0 with (4 * 0) at 1.
  rewrite (for_loop_difference a b n Ha Hb n 0) by lia.
  unfold pixelDifference. rewrite Ha.
  replace (4 * n / 4) with n by (rewrite Nat.mul_comm, Nat.div_mul; lia).
  reflexivity.
Qed.

Lemma sum_pixels_nonneg (f : nat -> Z) (n : nat) :
  forall k, (forall p, (0 <= f p)%Z) -> (0 <= sum_pixels f k n)%Z.
Proof.
  induction n as [|n IH]; intros k Hf; simpl; [lia|].
  specialize (IH (S k) Hf). specialize (Hf k). lia.
Qed.

Lemma sum_pixels_const (f : nat -> Z) (c : Z) (n : nat) :
  forall k, (forall p, k <= p < k + n -> f p = c) ->
    sum_pixels f k n = (Z.of_nat n * c)%Z.
Proof.
  induction n as [|n IH]; intros k Hf; simpl sum_pixels; [lia|].
  rewrite IH by (intros p Hp; apply Hf; lia).
  rewrite Hf by lia. lia.
Qed.

End Loop.

(** ** One frame *)

Arguments JS.of_Z : simpl never.
Arguments JS.mul : simpl never.
Arguments JS.div : simpl never.
Arguments JS.sub : simpl never.
Arguments JS.ltb : simpl never.
Arguments JS.leb : simpl never.
Arguments JS.incr : simpl never.
Arguments calculateDifference : simpl never.

Section Rounds.

Context {Polygon : Type} `{PolygonOps Polygon}.

Local Open Scope nat_scope.

(** The match depends on the target, the stage pixels and [maxDifference]
    only. *)
Lemma getMatch_value (f : Frame) (s : Fractal) :
  fst (getMatch f s)
  = JS.mul (JS.of_Z 100)
      (JS.sub (JS.of_Z 1)
         (JS.div
            (JS.to_float
               (returned (calculateDifference (imageData s) (canvasData f)
                            (graphData f))))
            (maxDifference s))).
Proof.
  unfold getMatch, calculateDifference_on.
  destruct (calculateDifference (imageData s) (canvasData f) (graphData f))
    as [r [dat|] [|]]; reflexivity.
Qed.

Lemma getMatch_set_polygons (f : Frame) (s : Fractal) (ps : list Polygon) :
  fst (getMatch f (set_polygons ps s)) = fst (getMatch f s).
Proof. rewrite !getMatch_value. reflexivity. Qed.

(** A frame whose polygon exists completes, and this is the state it
    leaves. *)
Lemma drawFrame_normal (f : Frame) (s : Fractal) (poly : Polygon) :
  polygons s !! nextMutable s = Some poly ->
  let m := fst (getMatch f s) in
  let poly' :=
    mutate (entropy f) (width (canvas s)) (height (canvas s)) (stash poly) in
  exists s',
    drawFrame f s = Normal s'
    /\ POLYGON_COUNT s' = POLYGON_COUNT s
    /\ canvas s' = canvas s
    /\ imageData s' = imageData s
    /\ maxDifference s' = maxDifference s
    /\ nextMutable s'
       = (if POLYGON_COUNT s <=? S (nextMutable s) then 0
          else S (nextMutable s))
    /\ mutations s' = JS.incr (mutations s)
    /\ (if JS.ltb (lastMatch s) m
        then lastMatch s' = m
             /\ breakthroughs s' = JS.incr (breakthroughs s)
             /\ polygons s' = <[nextMutable s := poly']> (polygons s)
        else lastMatch s' = lastMatch s
             /\ breakthroughs s' = breakthroughs s
             /\ polygons s' = <[nextMutable s := pop poly']> (polygons s)).
Proof.
  intros Hp m poly'. subst m. rewrite getMatch_value.
  unfold drawFrame. rewrite Hp.
  unfold getMatch, calculateDifference_on.
  destruct s as [N V cv ps c img lm md st mu br gr gp co]. simpl in *.
  destruct (calculateDifference img (canvasData f) (graphData f))
    as [r [dat|] [|]]; simpl;
    match goal with
    | |- context [JS.ltb lm ?x] => destruct (JS.ltb lm x)
    end;
    eexists; (split; [reflexivity|]); simpl;
    rewrite ?list_insert_insert_eq; repeat split; reflexivity.
Qed.

(** Without a polygon under the cursor the frame throws at [poly.stash()]. *)
Lemma drawFrame_throw (f : Frame) (s : Fractal) :
  polygons s !! nextMutable s = None -> drawFrame f s = Throw TypeError.
Proof. intros Hp. unfold drawFrame. rewrite Hp. reflexivity. Qed.

Lemma drawFrame_cursor_ok (f : Frame) (s : Fractal) :
  cursor_ok s -> exists s', drawFrame f s = Normal s' /\ cursor_ok s'.
Proof.
  intros [Hlen Hc].
  destruct (lookup_lt_is_Some_2 (polygons s) (nextMutable s)) as [poly Hp];
    [lia|].
  destruct (drawFrame_normal f s poly Hp)
    as (s' & Hs' & HN & _ & _ & _ & Hnext & _ & Hrest).
  exists s'. split; [exact Hs'|]. unfold cursor_ok. rewrite HN, Hnext. split.
  - destruct (JS.ltb _ _); destruct Hrest as (_ & _ & ->);
      rewrite length_insert; exact Hlen.
  - destruct (POLYGON_COUNT s <=? S (nextMutable s)) eqn:E; [lia|].
    apply Nat.leb_gt in E. lia.
Qed.

Lemma run_app (fs gs : list Frame) (s : Fractal) :
  run (fs ++ gs) s = bind (run fs s) (run gs).
Proof.
  revert s. induction fs as [|f fs IH]; intros s; simpl; [reflexivity|].
  destruct (drawFrame f s) as [s'|e]; simpl; [apply IH | reflexivity].
Qed.

(** A started run never throws. *)
Lemma run_cursor_ok (fs : list Frame) (s : Fractal) :
  cursor_ok s -> exists s', run fs s = Normal s' /\ cursor_ok s'.
Proof.
  revert s. induction fs as [|f fs IH]; intros s Hs; simpl.
  - exists s. split; [reflexivity | exact Hs].
  - destruct (drawFrame_cursor_ok f s Hs) as (s1 & -> & Hs1). simpl.
    apply IH, Hs1.
Qed.

End Rounds.

(** ** The optimizer *)

Section Optimizer.

Context {Polygon : Type} `{PolygonOps Polygon}.

Local Open Scope nat_scope.

(** What [calculateDifference] does to the page during a frame. *)
Lemma drawFrame_page (f : Frame) (s s' : Fractal) :
  drawFrame f s = Normal s' ->
  let r := calculateDifference (imageData s) (canvasData f) (graphData f) in
  console s'
  = (if warned r then console s ++ ["Invalid data comparison"%string]
     else console s)
  /\ graph_pixels s' = default (graph_pixels s) (put r).
Proof.
  unfold drawFrame.
  destruct (polygons s !! nextMutable s) as [poly|]; [|discriminate].
  unfold getMatch, calculateDifference_on.
  destruct s as [N V cv ps c img lm md st mu br gr gp co]. simpl.
  destruct (calculateDifference img (canvasData f) (graphData f))
    as [r [dat|] [|]]; simpl;
    match goal with
    | |- context [JS.ltb lm ?x] => destruct (JS.ltb lm x)
    end;
    intros [= <-]; simpl; split; reflexivity.
Qed.

(** [lastMatch] does not decrease in a frame, and stays a number. *)
Lemma drawFrame_lastMatch (f : Frame) (s s' : Fractal) :
  drawFrame f s = Normal s' ->
  JS.is_nan (lastMatch s) = false ->
  JS.leb (lastMatch s) (lastMatch s') = true
  /\ JS.is_nan (lastMatch s') = false.
Proof.
  intros Hd Hn.
  destruct (polygons s !! nextMutable s) as [poly|] eqn:Hp.
  - destruct (drawFrame_normal f s poly Hp)
      as (s1 & Hs1 & _ & _ & _ & _ & _ & _ & Hrest).
    rewrite Hd in Hs1. injection Hs1 as <-.
    destruct (JS.ltb (lastMatch s) (fst (getMatch f s))) eqn:E;
      destruct Hrest as (-> & _ & _).
    + split; [apply ltb_leb, E | apply (ltb_not_nan _ _ E)].
    + split; [apply leb_refl, Hn | exact Hn].
  - rewrite (drawFrame_throw f s Hp) in Hd. discriminate.
Qed.

Lemma run_lastMatch_number (fs : list Frame) (s s' : Fractal) :
  run fs s = Normal s' ->
  JS.is_nan (lastMatch s) = false -> JS.is_nan (lastMatch s') = false.
Proof.
  revert s. induction fs as [|f fs IH]; intros s Hr Hn; simpl in Hr.
  - injection Hr as <-. exact Hn.
  - destruct (drawFrame f s) as [s1|e] eqn:Hd; [|discriminate].
    simpl in Hr. apply (IH s1 Hr).
    apply (drawFrame_lastMatch f s s1 Hd Hn).
Qed.

(** The state in which [match] starts the timer. *)
Lemma match_start (n v : option nat) (fresh : nat -> Polygon)
    (img : HTMLImageElement) :
  let s0 := match_ fresh img (constructor n v) in
  lastMatch s0 = JS.of_Z 0
  /\ maxDifference s0
     = JS.mul
         (JS.mul (JS.mul (JS.of_Z (img_width img)) (JS.of_Z (img_height img)))
                 (JS.of_Z 3))
         (JS.of_Z 255)
  /\ canvas s0 = {| width := img_width img; height := img_height img |}
  /\ imageData s0 = img_data img
  /\ POLYGON_COUNT s0 = default 100 n
  /\ length (polygons s0) = default 100 n
  /\ nextMutable s0 = 0
  /\ mutations s0 = 0%Z
  /\ breakthroughs s0 = 0%Z.
Proof.
  unfold match_, getImageData, main, generateInitialPolygons. simpl.
  rewrite length_map, length_seq. repeat split; reflexivity.
Qed.

Lemma drawFrame_maxDifference (f : Frame) (s s' : Fractal) :
  drawFrame f s = Normal s' -> maxDifference s' = maxDifference s.
Proof.
  intros Hd.
  destruct (polygons s !! nextMutable s) as [poly|] eqn:Hp.
  - destruct (drawFrame_normal f s poly Hp) as (s1 & Hs1 & _ & _ & _ & Hm & _).
    rewrite Hd in Hs1. injection Hs1 as <-. exact Hm.
  - rewrite (drawFrame_throw f s Hp) in Hd. discriminate.
Qed.

Lemma run_maxDifference (fs : list Frame) (s s' : Fractal) :
  run fs s = Normal s' -> maxDifference s' = maxDifference s.
Proof.
  revert s. induction fs as [|f fs IH]; intros s Hr; simpl in Hr.
  - injection Hr as <-. reflexivity.
  - destruct (drawFrame f s) as [s1|e] eqn:Hd; [|discriminate].
    simpl in Hr. rewrite (IH s1 Hr). apply (drawFrame_maxDifference f s s1 Hd).
Qed.

(** *** C1 *)

Lemma lastMatch_step (s0 : Fractal) (fs : list Frame) (i : nat)
    (si sj : Fractal) :
  JS.is_nan (lastMatch s0) = false ->
  run (take i fs) s0 = Normal si ->
  run (take (S i) fs) s0 = Normal sj ->
  JS.leb (lastMatch si) (lastMatch sj) = true.
Proof.
  intros H0 Hi Hj.
  pose proof (run_lastMatch_number _ _ _ Hi H0) as Hn.
  destruct (fs !! i) as [f|] eqn:Hf.
  - rewrite (take_S_r _ _ _ Hf), run_app, Hi in Hj. simpl in Hj.
    destruct (drawFrame f si) as [s1|e] eqn:Hd; [|discriminate].
    simpl in Hj. injection Hj as <-.
    apply (drawFrame_lastMatch f si s1 Hd Hn).
  - apply lookup_ge_None in Hf.
    rewrite take_ge in Hi by lia. rewrite take_ge in Hj by lia.
    rewrite Hi in Hj. injection Hj as <-. apply leb_refl, Hn.
Qed.

(** C1.  In every run of the optimizer, whatever the stage shows in each
    frame, the frames complete and [lastMatch] after frame [i + 1] is at
    least [lastMatch] after frame [i]. *)
Theorem lastMatch_monotone (n v : option nat) (fresh : nat -> Polygon)
    (img : HTMLImageElement) (fs : list Frame) (i : nat) :
  let s0 := match_ fresh img (constructor n v) in
  0 < POLYGON_COUNT s0 ->
  exists si sj,
    run (take i fs) s0 = Normal si
    /\ run (take (S i) fs) s0 = Normal sj
    /\ JS.leb (lastMatch si) (lastMatch sj) = true.
Proof.
  intros s0 Hpos.
  destruct (match_start n v fresh img)
    as (Hl & _ & _ & _ & HN & Hlen & Hc & _).
  fold s0 in Hl, HN, Hlen, Hc.
  assert (Hok : cursor_ok s0) by (unfold cursor_ok; lia).
  destruct (run_cursor_ok (take i fs) s0 Hok) as (si & Hi & _).
  destruct (run_cursor_ok (take (S i) fs) s0 Hok) as (sj & Hj & _).
  exists si, sj. split; [exact Hi|]. split; [exact Hj|].
  apply (lastMatch_step s0 fs i si sj); try assumption.
  rewrite Hl. reflexivity.
Qed.

(** *** C3 *)

(** C3.  A frame accepts its mutation exactly when the new match is
    strictly above [lastMatch]: then [lastMatch] becomes the new match,
    [breakthroughs] grows by one and the mutated polygon stays; otherwise,
    also when the two are equal, the polygon is popped and [lastMatch] and
    [breakthroughs] are as before. *)
Theorem drawFrame_accepts_iff_improved (f : Frame) (s : Fractal)
    (poly : Polygon) :
  polygons s !! nextMutable s = Some poly ->
  (breakthroughs s < 2 ^ 53)%Z ->
  let m := fst (getMatch f s) in
  let poly' :=
    mutate (entropy f) (width (canvas s)) (height (canvas s)) (stash poly) in
  exists s',
    drawFrame f s = Normal s'
    /\ (JS.ltb (lastMatch s) m = true ->
        lastMatch s' = m
        /\ breakthroughs s' = (breakthroughs s + 1)%Z
        /\ polygons s' = <[nextMutable s := poly']> (polygons s))
    /\ (JS.ltb (lastMatch s) m = false ->
        lastMatch s' = lastMatch s
        /\ breakthroughs s' = breakthroughs s
        /\ polygons s' = <[nextMutable s := pop poly']> (polygons s))
    /\ (SFeqb (lastMatch s) m = true -> JS.ltb (lastMatch s) m = false).
Proof.
  intros Hp Hb m poly'.
  destruct (drawFrame_normal f s poly Hp)
    as (s' & Hs' & _ & _ & _ & _ & _ & _ & Hrest).
  fold m poly' in Hrest.
  exists s'. split; [exact Hs'|].
  assert (Hincr : JS.incr (breakthroughs s) = (breakthroughs s + 1)%Z).
  { unfold JS.incr. destruct (breakthroughs s <? 2 ^ 53)%Z eqn:E;
      [reflexivity|]. apply Z.ltb_ge in E. lia. }
  split; [|split].
  - intros E. rewrite E in Hrest. rewrite <- Hincr. exact Hrest.
  - intros E. rewrite E in Hrest. exact Hrest.
  - apply eqb_not_ltb.
Qed.

(** *** C10 and C2 *)

Lemma getMatch_mismatch (f : Frame) (s : Fractal) :
  length (imageData s) <> length (canvasData f) ->
  fst (getMatch f s) = S754_nan.
Proof.
  intros Hne. rewrite getMatch_value, calculateDifference_mismatch by exact Hne.
  simpl. vm_compute. reflexivity.
Qed.

Lemma incr_exact (n : Z) : (n < 2 ^ 53)%Z -> JS.incr n = (n + 1)%Z.
Proof.
  intros Hn. unfold JS.incr.
  destruct (n <? 2 ^ 53)%Z eqn:E; [reflexivity|]. apply Z.ltb_ge in E. lia.
Qed.

(** C10.  When the target and the stage pixels differ in length the
    difference is [undefined], the match is NaN and the comparison fails;
    the frame completes as a rejection: the selected polygon is popped,
    [lastMatch] and [breakthroughs] are unchanged, [mutations] grows by
    one, the cursor advances, and the next frame runs. *)
Theorem mismatch_frame_is_rejected (f : Frame) (s : Fractal) (poly : Polygon) :
  length (imageData s) <> length (canvasData f) ->
  cursor_ok s ->
  polygons s !! nextMutable s = Some poly ->
  (mutations s < 2 ^ 53)%Z ->
  let poly' :=
    mutate (entropy f) (width (canvas s)) (height (canvas s)) (stash poly) in
  returned (calculateDifference (imageData s) (canvasData f) (graphData f))
  = JS.Undefined
  /\ JS.is_nan (fst (getMatch f s)) = true
  /\ JS.ltb (lastMatch s) (fst (getMatch f s)) = false
  /\ exists s',
       drawFrame f s = Normal s'
       /\ polygons s' = <[nextMutable s := pop poly']> (polygons s)
       /\ lastMatch s' = lastMatch s
       /\ breakthroughs s' = breakthroughs s
       /\ mutations s' = (mutations s + 1)%Z
       /\ nextMutable s'
          = (if POLYGON_COUNT s <=? S (nextMutable s) then 0
             else S (nextMutable s))
       /\ forall f', exists s'', drawFrame f' s' = Normal s''.
Proof.
  intros Hne Hok Hp Hm poly'.
  pose proof (getMatch_mismatch f s Hne) as Hnan.
  split; [rewrite calculateDifference_mismatch by exact Hne; reflexivity|].
  split; [rewrite Hnan; reflexivity|].
  split; [rewrite Hnan; apply ltb_nan_r|].
  destruct (drawFrame_normal f s poly Hp)
    as (s' & Hs' & _ & _ & _ & _ & Hnext & Hmut & Hrest).
  rewrite Hnan, ltb_nan_r in Hrest. destruct Hrest as (Hl & Hb & Hps).
  exists s'. repeat split; try assumption.
  - rewrite Hmut. apply incr_exact, Hm.
  - intros f'.
    destruct (drawFrame_cursor_ok f s Hok) as (s1 & Hs1 & Hok1).
    rewrite Hs' in Hs1. injection Hs1 as <-.
    destruct (drawFrame_cursor_ok f' s' Hok1) as (s2 & Hs2 & _).
    exists s2. exact Hs2.
Qed.

(** C2, as the code has it.  When the target and the stage pixels differ
    in length, [calculateDifference] warns on the console and returns
    [undefined]: nothing is put on the graph, no error is raised, the frame
    completes as a rejection (the selected polygon is popped, [lastMatch]
    and [breakthroughs] are as before) and the run goes on through every
    later frame. *)
Theorem mismatch_warns_and_run_continues (f : Frame) (s : Fractal) :
  length (imageData s) <> length (canvasData f) ->
  cursor_ok s ->
  calculateDifference (imageData s) (canvasData f) (graphData f)
  = {| returned := JS.Undefined; put := None; warned := true |}
  /\ exists s',
       drawFrame f s = Normal s'
       /\ console s' = console s ++ ["Invalid data comparison"%string]
       /\ graph_pixels s' = graph_pixels s
       /\ (exists poly,
             polygons s !! nextMutable s = Some poly
             /\ polygons s'
                = <[nextMutable s :=
                      pop (mutate (entropy f) (width (canvas s))
                             (height (canvas s)) (stash poly))]> (polygons s))
       /\ lastMatch s' = lastMatch s
       /\ breakthroughs s' = breakthroughs s
       /\ forall fs, exists s'', run fs s' = Normal s''.
Proof.
  intros Hne Hok.
  pose proof (calculateDifference_mismatch _ _ (graphData f) Hne) as Hc.
  split; [exact Hc|].
  destruct (drawFrame_cursor_ok f s Hok) as (s' & Hs' & Hok').
  exists s'. split; [exact Hs'|].
  destruct (drawFrame_page f s s' Hs') as [Hco Hgp].
  rewrite Hc in Hco, Hgp. simpl in Hco, Hgp.
  split; [exact Hco|]. split; [exact Hgp|].
  destruct Hok as [Hl Hcur].
  destruct (lookup_lt_is_Some_2 (polygons s) (nextMutable s)) as [poly Hp];
    [lia|].
  destruct (drawFrame_normal f s poly Hp)
    as (s1 & Hs1 & _ & _ & _ & _ & _ & _ & Hrest).
  rewrite Hs' in Hs1. injection Hs1 as <-.
  rewrite (getMatch_mismatch f s Hne), ltb_nan_r in Hrest.
  destruct Hrest as (Hlm & Hbr & Hps).
  split; [exists poly; split; [exact Hp | exact Hps]|].
  split; [exact Hlm|]. split; [exact Hbr|].
  intros fs. destruct (run_cursor_ok fs s' Hok') as (s'' & Hs'' & _).
  exists s''. exact Hs''.
Qed.

(** *** C6 *)

Lemma selected_app (fs gs : list Frame) (s s1 : Fractal) :
  run fs s = Normal s1 ->
  selected (fs ++ gs) s = selected fs s ++ selected gs s1.
Proof.
  revert s. induction fs as [|f fs IH]; intros s Hr; simpl in *.
  - injection Hr as <-. reflexivity.
  - destruct (drawFrame f s) as [s2|e]; [|discriminate].
    simpl in Hr. rewrite (IH s2 Hr). reflexivity.
Qed.

(** Frames that do not reach the end of the population select
    consecutive polygons. *)
Lemma selected_segment (fs : list Frame) :
  forall s : Fractal,
    cursor_ok s ->
    nextMutable s + length fs <= POLYGON_COUNT s ->
    exists s',
      run fs s = Normal s'
      /\ cursor_ok s'
      /\ POLYGON_COUNT s' = POLYGON_COUNT s
      /\ selected fs s = seq (nextMutable s) (length fs)
      /\ nextMutable s'
         = (if nextMutable s + length fs =? POLYGON_COUNT s then 0
            else nextMutable s + length fs).
Proof.
  induction fs as [|f fs IH]; intros s Hok Hlen; simpl in *.
  - exists s. destruct Hok as [Hl Hc]. repeat split; try assumption.
    rewrite Nat.add_0_r.
    destruct (nextMutable s =? POLYGON_COUNT s) eqn:E; [|reflexivity].
    apply Nat.eqb_eq in E. lia.
  - destruct Hok as [Hl Hc].
    destruct (lookup_lt_is_Some_2 (polygons s) (nextMutable s)) as [poly Hp];
      [lia|].
    destruct (drawFrame_normal f s poly Hp)
      as (s1 & Hs1 & HN & _ & _ & _ & Hnext & _).
    destruct (drawFrame_cursor_ok f s (conj Hl Hc)) as (s1' & Hs1' & Hok1).
    rewrite Hs1 in Hs1'. injection Hs1' as <-.
    rewrite Hs1. simpl.
    destruct (POLYGON_COUNT s <=? S (nextMutable s)) eqn:E.
    + apply Nat.leb_le in E.
      destruct fs as [|g fs]; [|simpl in Hlen; lia].
      simpl. exists s1. repeat split; try apply Hok1; try assumption.
      rewrite Hnext.
      destruct (nextMutable s + 1 =? POLYGON_COUNT s) eqn:E'; [reflexivity|].
      apply Nat.eqb_neq in E'. lia.
    + apply Nat.leb_gt in E.
      destruct (IH s1 Hok1) as (s' & Hr & Hok' & HN' & Hsel & Hnext').
      { rewrite Hnext, HN. lia. }
      exists s'. rewrite Hsel, Hnext', Hnext, HN', HN.
      repeat split; try apply Hok'; try reflexivity; try assumption.
      replace (S (nextMutable s) + length fs)
        with (nextMutable s + S (length fs)) by lia.
      reflexivity.
Qed.

(** C6.  From any position of the cursor, [POLYGON_COUNT] consecutive
    frames select every polygon index exactly once, counting up from the
    cursor to [POLYGON_COUNT - 1], wrapping to 0 and counting up to where
    they began; the cursor moves in every frame, whatever the frame
    decides. *)
Theorem round_robin (fs : list Frame) (s : Fractal) :
  cursor_ok s ->
  length fs = POLYGON_COUNT s ->
  exists s',
    run fs s = Normal s'
    /\ selected fs s
       = seq (nextMutable s) (POLYGON_COUNT s - nextMutable s)
         ++ seq 0 (nextMutable s)
    /\ Permutation (selected fs s) (seq 0 (POLYGON_COUNT s))
    /\ NoDup (selected fs s)
    /\ nextMutable s' = nextMutable s
    /\ forall f, exists s1,
         drawFrame f s = Normal s1
         /\ nextMutable s1 = S (nextMutable s) mod POLYGON_COUNT s.
Proof.
  intros Hok Hlen.
  pose proof Hok as [Hl Hc].
  assert (Hstep : forall f, exists s1,
             drawFrame f s = Normal s1
             /\ nextMutable s1 = S (nextMutable s) mod POLYGON_COUNT s).
  { intros f.
    destruct (lookup_lt_is_Some_2 (polygons s) (nextMutable s)) as [poly Hp];
      [lia|].
    destruct (drawFrame_normal f s poly Hp)
      as (s1 & Hs1 & _ & _ & _ & _ & Hnext & _).
    exists s1. split; [exact Hs1|]. rewrite Hnext.
    destruct (POLYGON_COUNT s <=? S (nextMutable s)) eqn:E.
    - apply Nat.leb_le in E.
      replace (S (nextMutable s)) with (POLYGON_COUNT s) by lia.
      rewrite Nat.Div0.mod_same. reflexivity.
    - apply Nat.leb_gt in E. rewrite Nat.mod_small by lia. reflexivity. }
  set (N := POLYGON_COUNT s) in *. set (c := nextMutable s) in *.
  rewrite <- (take_drop (N - c) fs).
  destruct (selected_segment (take (N - c) fs) s Hok)
    as (s1 & Hr1 & Hok1 & HN1 & Hsel1 & Hnext1).
  { rewrite length_take. fold c N. lia. }
  rewrite length_take in Hsel1, Hnext1. fold c N in Hsel1, Hnext1.
  replace ((N - c) `min` length fs) with (N - c) in Hsel1, Hnext1 by lia.
  replace (c + (N - c) =? N) with true in Hnext1
    by (symmetry; apply Nat.eqb_eq; lia).
  destruct (selected_segment (drop (N - c) fs) s1 Hok1)
    as (s2 & Hr2 & Hok2 & HN2 & Hsel2 & Hnext2).
  { rewrite length_drop, Hnext1, HN1. fold N. lia. }
  rewrite length_drop, Hnext1 in Hsel2, Hnext2.
  rewrite HN1 in Hnext2. fold N in Hnext2. simpl in Hnext2.
  replace (length fs - (N - c)) with c in Hsel2, Hnext2 by lia.
  replace (c =? N) with false in Hnext2
    by (symmetry; apply Nat.eqb_neq; lia).
  assert (Hsel : selected (take (N - c) fs ++ drop (N - c) fs) s
                 = seq c (N - c) ++ seq 0 c).
  { rewrite (selected_app _ _ _ _ Hr1), Hsel1, Hsel2. reflexivity. }
  assert (Hperm : Permutation (seq c (N - c) ++ seq 0 c) (seq 0 N)).
  { replace N with (c + (N - c)) at 2 by lia.
    rewrite seq_app. apply Permutation_app_comm. }
  exists s2. rewrite run_app, Hr1. simpl. rewrite Hsel.
  repeat split; try assumption.
  rewrite Hperm. apply NoDup_seq.
Qed.

(** *** C5 *)

(** C5.  The match of a frame is [100 * (1 - difference / maxDifference)],
    and [maxDifference] is the value [width * height * 3 * 255] that
    [match] computed from the image, in binary64 and so the exact product
    while that is below [2^53]: no frame of the run changes it. *)
Theorem match_percentage_formula (n v : option nat) (fresh : nat -> Polygon)
    (img : HTMLImageElement) (fs : list Frame) (s : Fractal) (f : Frame) :
  let s0 := match_ fresh img (constructor n v) in
  run fs s0 = Normal s ->
  maxDifference s0
  = JS.mul
      (JS.mul
         (JS.mul (JS.of_Z (width (canvas s0))) (JS.of_Z (height (canvas s0))))
         (JS.of_Z 3))
      (JS.of_Z 255)
  /\ width (canvas s0) = img_width img
  /\ height (canvas s0) = img_height img
  /\ ((0 < img_width img)%Z -> (0 < img_height img)%Z ->
      (img_width img * img_height img * 3 * 255 < 2 ^ 53)%Z ->
      maxDifference s0
      = JS.of_Z (img_width img * img_height img * 3 * 255))
  /\ maxDifference s = maxDifference s0
  /\ fst (getMatch f s)
     = matchPercentage
         (JS.to_float
            (returned (calculateDifference (imageData s) (canvasData f)
                         (graphData f))))
         (maxDifference s).
Proof.
  intros s0 Hrun.
  destruct (match_start n v fresh img) as (_ & Hmax & Hcv & _).
  fold s0 in Hmax, Hcv.
  split; [rewrite Hcv; exact Hmax|].
  split; [rewrite Hcv; reflexivity|].
  split; [rewrite Hcv; reflexivity|].
  split.
  { intros Hw Hh Hlt. rewrite Hmax.
    apply maxDifference_product_exact; assumption. }
  split; [apply (run_maxDifference fs s0 s Hrun)|].
  rewrite getMatch_value. reflexivity.
Qed.

End Optimizer.

(** ** The scorer *)

Section Scorer.

Context {Polygon : Type} `{PolygonOps Polygon}.

Local Open Scope nat_scope.

Lemma sum_pixels_ext (f g : nat -> Z) (n : nat) :
  forall k, (forall p, f p = g p) -> sum_pixels f k n = sum_pixels g k n.
Proof.
  induction n as [|n IH]; intros k Hfg; simpl; [reflexivity|].
  rewrite (IH (S k) Hfg), Hfg. reflexivity.
Qed.

Lemma pixel_difference_nonneg (a b : Uint8ClampedArray) (p : nat) :
  (0 <= pixel_difference a b p)%Z.
Proof. unfold pixel_difference, channel_difference. lia. Qed.

(** Writing the alpha bytes of a pixel changes no pixel difference. *)
Lemma pixel_difference_alpha (a b : Uint8ClampedArray) (p q : nat) (v w : Z) :
  pixel_difference (<[4 * p + 3 := v]> a) (<[4 * p + 3 := w]> b) q
  = pixel_difference a b q.
Proof.
  unfold pixel_difference, channel_difference.
  rewrite !nth_lookup, !list_lookup_insert_ne by lia. reflexivity.
Qed.

(** *** C4 *)

(** C4.  On two buffers of interleaved RGBA bytes of the same size the
    difference returned is the sum over the pixels of
    [|ΔR| + |ΔG| + |ΔB|]: an integer that is not negative, not divided by
    anything, and on which the alpha bytes have no influence. *)
Theorem calculateDifference_sums_rgb (a b g : Uint8ClampedArray) (n : nat) :
  length a = 4 * n ->
  length b = 4 * n ->
  returned (calculateDifference a b g) = JS.Int (pixelDifference a b)
  /\ (0 <= pixelDifference a b)%Z
  /\ forall p v w,
       returned (calculateDifference (<[4 * p + 3 := v]> a)
                   (<[4 * p + 3 := w]> b) g)
       = returned (calculateDifference a b g).
Proof.
  intros Ha Hb. split; [apply (calculateDifference_returned a b g n Ha Hb)|].
  split.
  - apply sum_pixels_nonneg. intros p. apply pixel_difference_nonneg.
  - intros p v w.
    rewrite (calculateDifference_returned _ _ g n)
      by (rewrite length_insert; assumption).
    rewrite (calculateDifference_returned a b g n Ha Hb).
    unfold pixelDifference. rewrite length_insert. f_equal.
    apply sum_pixels_ext. intros q. apply pixel_difference_alpha.
Qed.

(** *** C7 *)

Lemma pixelDifference_same (buf : Uint8ClampedArray) :
  pixelDifference buf buf = 0%Z.
Proof.
  unfold pixelDifference.
  rewrite (sum_pixels_const _ 0%Z); [lia|].
  intros p _. unfold pixel_difference, channel_difference.
  rewrite !Z.sub_diag. reflexivity.
Qed.

(** C7.  The difference of a buffer against itself is 0, and a difference
    of 0 against any positive [maxDifference] is a match of exactly 100:
    for the formula, and for [getMatch] on a stage that shows the target. *)
Theorem identical_buffers_match_100 (buf g : Uint8ClampedArray) (n : nat) :
  length buf = 4 * n ->
  returned (calculateDifference buf buf g) = JS.Int 0
  /\ (forall max, JS.ltb (JS.of_Z 0) max = true ->
        matchPercentage (JS.of_Z 0) max = JS.of_Z 100)
  /\ (forall (s : Fractal) (f : Frame),
        imageData s = buf -> canvasData f = buf ->
        JS.ltb (JS.of_Z 0) (maxDifference s) = true ->
        fst (getMatch f s) = JS.of_Z 100).
Proof.
  intros Hn. split; [|split].
  - rewrite (calculateDifference_returned buf buf g n Hn Hn).
    rewrite pixelDifference_same. reflexivity.
  - intros max Hmax. apply percentage_of_zero, Hmax.
  - intros s f Hs Hf Hmax.
    rewrite getMatch_value, Hs, Hf.
    rewrite (calculateDifference_returned buf buf _ n Hn Hn).
    rewrite pixelDifference_same. apply percentage_of_zero, Hmax.
Qed.

(** *** C8 *)

Lemma rgb_all_nth (v : Z) (a : Uint8ClampedArray) (p c : nat) :
  rgb_all v a -> 4 * p + 3 < length a -> c < 3 -> nth (4 * p + c) a 0%Z = v.
Proof.
  intros Hall Hlen Hc.
  destruct (lookup_lt_is_Some_2 a (4 * p + c)) as [x Hx]; [lia|].
  rewrite (nth_lookup_Some _ _ 0%Z _ Hx).
  apply (Hall _ _ Hx).
  replace (4 * p + c) with (c + p * 4) by lia.
  rewrite Nat.Div0.mod_add, Nat.mod_small by lia. lia.
Qed.

Lemma pixelDifference_opposite (a b : Uint8ClampedArray) (n : nat) :
  length a = 4 * n -> length b = 4 * n ->
  (rgb_all 0 a /\ rgb_all 255 b) \/ (rgb_all 255 a /\ rgb_all 0 b) ->
  pixelDifference a b = (Z.of_nat n * 765)%Z.
Proof.
  intros Ha Hb Hab. unfold pixelDifference. rewrite Ha.
  replace (4 * n / 4) with n by (rewrite Nat.mul_comm, Nat.div_mul; lia).
  apply sum_pixels_const. intros p Hp.
  unfold pixel_difference, channel_difference.
  rewrite <- (Nat.add_0_r (4 * p)) at 1 2.
  destruct Hab as [[H0 H255]|[H255 H0]].
  - rewrite !(rgb_all_nth 0 a p) by (assumption || lia).
    rewrite !(rgb_all_nth 255 b p) by (assumption || lia).
    reflexivity.
  - rewrite !(rgb_all_nth 255 a p) by (assumption || lia).
    rewrite !(rgb_all_nth 0 b p) by (assumption || lia).
    reflexivity.
Qed.

(** C8.  For two buffers of [width * height] pixels, one with every red,
    green and blue byte 0 and the other with every one 255, whatever their
    alpha bytes, the difference is [width * height * 3 * 255], which is
    [maxDifference], and the match is exactly 0. *)
Theorem opposite_buffers_match_0 (w h : Z) (a b g : Uint8ClampedArray) :
  (0 < w)%Z -> (0 < h)%Z ->
  (w * h * 3 * 255 < 2 ^ 53)%Z ->
  length a = 4 * Z.to_nat (w * h) ->
  length b = 4 * Z.to_nat (w * h) ->
  (rgb_all 0 a /\ rgb_all 255 b) \/ (rgb_all 255 a /\ rgb_all 0 b) ->
  returned (calculateDifference a b g) = JS.Int (w * h * 3 * 255)
  /\ (forall (s : Fractal) (f : Frame),
        imageData s = a -> canvasData f = b ->
        maxDifference s
        = JS.of_Z (width (canvas s) * height (canvas s) * 3 * 255) ->
        width (canvas s) = w -> height (canvas s) = h ->
        fst (getMatch f s) = JS.of_Z 0).
Proof.
  intros Hw Hh Hlt Ha Hb Hab.
  assert (Hd : forall g', returned (calculateDifference a b g')
                          = JS.Int (w * h * 3 * 255)).
  { intros g'. rewrite (calculateDifference_returned a b g' _ Ha Hb).
    rewrite (pixelDifference_opposite a b _ Ha Hb Hab).
    f_equal. rewrite Z2Nat.id by nia. lia. }
  split; [apply Hd|].
  intros s f Hs Hf Hmax Hcw Hch.
  rewrite getMatch_value, Hs, Hf, Hd, Hmax, Hcw, Hch. simpl JS.to_float.
  destruct (of_Z_finite (w * h * 3 * 255)) as (m & e & ->); [nia|].
  rewrite div_self. vm_compute. reflexivity.
Qed.

(** *** C9 *)

Lemma third_rounded_nearest (x : Z) :
  (-1 <= 3 * third_rounded x - x <= 1)%Z.
Proof.
  unfold third_rounded.
  pose proof (Z.div_mod (x + 1) 3 ltac:(lia)).
  pose proof (Z.mod_pos_bound (x + 1) 3 ltac:(lia)). lia.
Qed.

(** C9, as the code has it.  The buffer put on the graph has, for every
    pixel, red, green and blue 0 and as alpha the value
    [(765 - ΔR - ΔG - ΔB) / 3] rounded to the nearest integer, which is
    what the byte array keeps of it. *)
Theorem visualization_alpha_rounded (a b g : Uint8ClampedArray) (n : nat) :
  rgba_buffer n a ->
  rgba_buffer n b ->
  length g = 4 * n ->
  exists dat,
    put (calculateDifference a b g) = Some dat
    /\ length dat = 4 * n
    /\ forall p, p < n ->
         let alpha := third_rounded (765 - pixel_difference a b p) in
         dat !! (4 * p) = Some 0%Z
         /\ dat !! (4 * p + 1) = Some 0%Z
         /\ dat !! (4 * p + 2) = Some 0%Z
         /\ dat !! (4 * p + 3) = Some alpha
         /\ (-1 <= 3 * alpha - (765 - pixel_difference a b p) <= 1)%Z.
Proof.
  intros Ha Hb Hg.
  pose proof Ha as [La _]. pose proof Hb as [Lb _].
  rewrite calculateDifference_equal by lia. simpl put.
  eexists. split; [reflexivity|].
  change 0 with (4 * 0) at 1 2.
  destruct (for_loop_dat a b n Ha Hb n 0 0%Z g ltac:(lia) Hg)
    as (Hlen & _ & Hpix).
  split; [exact Hlen|].
  intros p Hp alpha.
  destruct (Hpix p ltac:(lia)) as (H0 & H1 & H2 & H3).
  repeat split; try assumption; apply third_rounded_nearest.
Qed.

End Scorer.

(** ** The properties on the small run *)

Section Instances.

Import Example.

#[local] Existing Instance SpecPolygon.ops.

Local Open Scope nat_scope.

Lemma lastMatch_monotone_witness :
  0 < POLYGON_COUNT start
  /\ exists si sj,
       run (take 1 frames) start = Normal si
       /\ run (take 2 frames) start = Normal sj
       /\ JS.leb (lastMatch si) (lastMatch sj) = true.
Proof.
  assert (H1 : 0 < POLYGON_COUNT start) by (simpl; lia).
  split; [exact H1|].
  exact (lastMatch_monotone (Some 2) None triangle img frames 1 H1).
Defined.

Lemma drawFrame_accepts_iff_improved_witness :
  polygons start !! nextMutable start = Some (triangle 0)
  /\ (breakthroughs start < 2 ^ 53)%Z
  /\ exists s',
       drawFrame near start = Normal s'
       /\ lastMatch s' = fst (getMatch near start)
       /\ breakthroughs s' = 1%Z.
Proof.
  assert (H1 : polygons start !! nextMutable start = Some (triangle 0))
    by reflexivity.
  assert (H2 : (breakthroughs start < 2 ^ 53)%Z) by reflexivity.
  split; [exact H1|]. split; [exact H2|].
  destruct (drawFrame_accepts_iff_improved near start (triangle 0) H1 H2)
    as (s' & Hd & Hacc & _).
  exists s'. split; [exact Hd|].
  destruct Hacc as (Hl & Hb & _); [vm_compute; reflexivity|].
  split; [exact Hl | exact Hb].
Defined.

Lemma mismatch_frame_is_rejected_witness :
  length (imageData start) <> length (canvasData resized)
  /\ cursor_ok start
  /\ polygons start !! nextMutable start = Some (triangle 0)
  /\ (mutations start < 2 ^ 53)%Z
  /\ exists s',
       drawFrame resized start = Normal s'
       /\ lastMatch s' = lastMatch start
       /\ breakthroughs s' = breakthroughs start
       /\ mutations s' = 1%Z
       /\ nextMutable s' = 1.
Proof.
  assert (H1 : length (imageData start) <> length (canvasData resized))
    by (simpl; lia).
  assert (H2 : cursor_ok start) by (split; simpl; lia).
  assert (H3 : polygons start !! nextMutable start = Some (triangle 0))
    by reflexivity.
  assert (H4 : (mutations start < 2 ^ 53)%Z) by reflexivity.
  repeat (split; [assumption|]).
  destruct (mismatch_frame_is_rejected resized start (triangle 0) H1 H2 H3 H4)
    as (_ & _ & _ & s' & Hd & _ & Hl & Hb & Hm & Hn & _).
  exists s'. repeat split; assumption.
Defined.

(** C2 fails on the code: with one pixel of target and two pixels of
    stage, [calculateDifference] returns [undefined] instead of failing,
    the frame does not throw, and the run goes on with the next frame. *)
Lemma mismatch_does_not_abort :
  length (imageData start) <> length (canvasData resized)
  /\ calculateDifference (imageData start) (canvasData resized)
       (graphData resized)
     = {| returned := JS.Undefined; put := None; warned := true |}
  /\ (forall e, drawFrame resized start <> Throw e)
  /\ exists s',
       run [resized; near] start = Normal s' /\ mutations s' = 2%Z.
Proof.
  split; [simpl; lia|]. split; [vm_compute; reflexivity|]. split.
  - intros e. vm_compute. discriminate.
  - eexists. split; vm_compute; reflexivity.
Qed.

Lemma mismatch_warns_and_run_continues_witness :
  length (imageData start) <> length (canvasData resized)
  /\ cursor_ok start
  /\ exists s',
       drawFrame resized start = Normal s'
       /\ console s' = ["Invalid data comparison"%string]
       /\ graph_pixels s' = []
       /\ lastMatch s' = lastMatch start
       /\ breakthroughs s' = breakthroughs start.
Proof.
  assert (H1 : length (imageData start) <> length (canvasData resized))
    by (simpl; lia).
  assert (H2 : cursor_ok start) by (split; simpl; lia).
  repeat (split; [assumption|]).
  destruct (mismatch_warns_and_run_continues resized start H1 H2)
    as (_ & s' & Hd & Hc & Hg & _ & Hl & Hb & _).
  exists s'. repeat split; assumption.
Defined.

Lemma round_robin_witness :
  cursor_ok after_near
  /\ length [far; resized] = POLYGON_COUNT after_near
  /\ selected [far; resized] after_near = [1; 0].
Proof.
  assert (H1 : cursor_ok after_near) by (split; simpl; lia).
  assert (H2 : length [far; resized] = POLYGON_COUNT after_near)
    by reflexivity.
  repeat (split; [assumption|]).
  destruct (round_robin [far; resized] after_near H1 H2)
    as (s' & _ & Hsel & _).
  exact Hsel.
Defined.

Lemma match_percentage_formula_witness :
  run [near] start = Normal after_near
  /\ maxDifference start = JS.of_Z (1 * 1 * 3 * 255)
  /\ maxDifference after_near = maxDifference start.
Proof.
  assert (H1 : run [near] start = Normal after_near)
    by (vm_compute; reflexivity).
  repeat (split; [assumption|]).
  destruct (match_percentage_formula (Some 2) None triangle img [near]
              after_near near H1) as (_ & _ & _ & Hmax & Hkeep & _).
  split; [|exact Hkeep].
  apply Hmax; reflexivity.
Defined.

Lemma calculateDifference_sums_rgb_witness :
  length target2 = 4 * 2
  /\ length stage2 = 4 * 2
  /\ returned (calculateDifference target2 stage2 graph2) = JS.Int 49.
Proof.
  assert (H1 : length target2 = 4 * 2) by reflexivity.
  assert (H2 : length stage2 = 4 * 2) by reflexivity.
  repeat (split; [assumption|]).
  destruct (calculateDifference_sums_rgb target2 stage2 graph2 2 H1 H2)
    as (Hr & _).
  exact Hr.
Defined.

Lemma identical_buffers_match_100_witness :
  length target2 = 4 * 2
  /\ returned (calculateDifference target2 target2 graph2) = JS.Int 0
  /\ fst (getMatch exact start) = JS.of_Z 100.
Proof.
  assert (H1 : length target2 = 4 * 2) by reflexivity.
  split; [exact H1|].
  split.
  - exact (proj1 (identical_buffers_match_100 (Polygon := SpecPolygon.t)
                    target2 graph2 2 H1)).
  - assert (H2 : length (imageData start) = 4 * 1) by reflexivity.
    destruct (identical_buffers_match_100 (imageData start) [] 1 H2)
      as (_ & _ & Hm).
    apply Hm; [reflexivity | reflexivity | vm_compute; reflexivity].
Defined.

Lemma opposite_buffers_match_0_witness :
  (0 < 1)%Z /\ (0 < 2)%Z
  /\ (1 * 2 * 3 * 255 < 2 ^ 53)%Z
  /\ length black = 4 * Z.to_nat (1 * 2)
  /\ length white = 4 * Z.to_nat (1 * 2)
  /\ (rgb_all 0 black /\ rgb_all 255 white)
  /\ returned (calculateDifference black white graph2) = JS.Int 1530
  /\ fst (getMatch white_stage black_start) = JS.of_Z 0.
Proof.
  assert (H1 : (0 < 1)%Z) by reflexivity.
  assert (H2 : (0 < 2)%Z) by reflexivity.
  assert (H3 : (1 * 2 * 3 * 255 < 2 ^ 53)%Z) by reflexivity.
  assert (H4 : length black = 4 * Z.to_nat (1 * 2)) by reflexivity.
  assert (H5 : length white = 4 * Z.to_nat (1 * 2)) by reflexivity.
  assert (H6 : rgb_all 0 black).
  { intros j v Hj Hm.
    do 8 (destruct j as [|j];
          [simpl in Hj, Hm; first [congruence | lia] |]).
    discriminate. }
  assert (H7 : rgb_all 255 white).
  { intros j v Hj Hm.
    do 8 (destruct j as [|j];
          [simpl in Hj, Hm; first [congruence | lia] |]).
    discriminate. }
  repeat (split; [assumption|]).
  split; [split; assumption|].
  destruct (opposite_buffers_match_0 1 2 black white graph2 H1 H2 H3 H4 H5
              (or_introl (conj H6 H7))) as (Hd & Hm).
  split; [exact Hd|].
  apply Hm; reflexivity.
Defined.

(** C9 fails on the code: where the target is one step of red away from
    the stage, the alpha byte is 255, and 255 is not a third of 764,
    exactly or rounded down. *)
Lemma alpha_is_not_an_exact_third :
  (put (calculateDifference target1 stage1 graph1)) ≫= (.!! 3) = Some 255%Z
  /\ pixel_difference target1 stage1 0 = 1%Z
  /\ (3 * 255 <> 765 - 1)%Z
  /\ (255 <> (765 - 1) / 3)%Z.
Proof.
  split; [vm_compute; reflexivity|].
  split; [reflexivity|].
  split; [lia|]. vm_compute. discriminate.
Qed.

Lemma visualization_alpha_rounded_witness :
  rgba_buffer 2 target2
  /\ rgba_buffer 2 stage2
  /\ length graph2 = 4 * 2
  /\ exists dat,
       put (calculateDifference target2 stage2 graph2) = Some dat
       /\ dat !! 3 = Some 255%Z
       /\ dat !! 7 = Some 239%Z.
Proof.
  assert (H1 : rgba_buffer 2 target2).
  { split; [reflexivity|]. unfold is_bytes, target2. repeat constructor; lia. }
  assert (H2 : rgba_buffer 2 stage2).
  { split; [reflexivity|]. unfold is_bytes, stage2. repeat constructor; lia. }
  assert (H3 : length graph2 = 4 * 2) by reflexivity.
  repeat (split; [assumption|]).
  destruct (visualization_alpha_rounded target2 stage2 graph2 2 H1 H2 H3)
    as (dat & Hput & _ & Hpix).
  exists dat. split; [exact Hput|].
  split.
  - exact (proj1 (proj2 (proj2 (proj2 (Hpix 0 ltac:(lia)))))).
  - exact (proj1 (proj2 (proj2 (proj2 (Hpix 1 ltac:(lia)))))).
Defined.

End Instances.

(** * Further properties *)

(** ** The order of binary64 numbers *)

Section Order.

Ltac compare_cases :=
  repeat match goal with
         | |- context [(?a ?= ?b)%Z] => destruct (Z.compare_spec a b)
         | |- context [Pos.compare_cont Eq ?a ?b] =>
             change (Pos.compare_cont Eq a b) with (Pos.compare a b);
             destruct (Pos.compare_spec a b)
         end;
  simpl; intros; subst; try discriminate; try reflexivity; try lia.

Lemma leb_trans (x y z : JS.float) :
  JS.leb x y = true -> JS.leb y z = true -> JS.leb x z = true.
Proof.
  unfold JS.leb, SFleb, SFcompare.
  destruct x as [sx|sx| |sx mx ex], y as [sy|sy| |sy my ey],
    z as [sz|sz| |sz mz ez];
    try discriminate; try reflexivity;
    repeat match goal with s : bool |- _ => destruct s end;
    try discriminate; try reflexivity; try (intros; discriminate);
    compare_cases.
Qed.

(** Of two numbers, the one that is not above the other is below or equal
    to it. *)
Lemma not_ltb_leb (x y : JS.float) :
  JS.is_nan x = false -> JS.is_nan y = false ->
  JS.ltb x y = false -> JS.leb y x = true.
Proof.
  unfold JS.ltb, JS.leb, SFltb, SFleb, SFcompare.
  destruct x as [sx|sx| |sx mx ex], y as [sy|sy| |sy my ey];
    try discriminate; try reflexivity;
    repeat match goal with s : bool |- _ => destruct s end;
    try discriminate; try reflexivity; try (intros; discriminate);
    compare_cases.
Qed.

End Order.

(** ** Whole runs *)

Section Runs.

Context {Polygon : Type} `{PolygonOps Polygon}.

Local Open Scope nat_scope.

(** What no frame writes. *)
Lemma drawFrame_keeps (f : Frame) (s s' : Fractal) :
  drawFrame f s = Normal s' ->
  POLYGON_COUNT s' = POLYGON_COUNT s
  /\ POLYGON_VERTICES s' = POLYGON_VERTICES s
  /\ canvas s' = canvas s
  /\ graph s' = graph s
  /\ imageData s' = imageData s
  /\ maxDifference s' = maxDifference s
  /\ length (polygons s') = length (polygons s).
Proof.
  unfold drawFrame.
  destruct (polygons s !! nextMutable s) as [poly|]; [|discriminate].
  unfold getMatch, calculateDifference_on.
  destruct s as [N V cv ps c img lm md st mu br gr gp co]. simpl.
  destruct (calculateDifference img (canvasData f) (graphData f))
    as [r [dat|] [|]]; simpl;
    match goal with
    | |- context [JS.ltb lm ?x] => destruct (JS.ltb lm x)
    end;
    intros [= <-]; simpl; rewrite ?length_insert; repeat split; reflexivity.
Qed.

(** X3.  A run never writes the target image, the size of the canvases,
    [maxDifference], [POLYGON_COUNT] or [POLYGON_VERTICES], and the
    population keeps its size. *)
Theorem run_keeps_setup (fs : list Frame) (s s' : Fractal) :
  run fs s = Normal s' ->
  POLYGON_COUNT s' = POLYGON_COUNT s
  /\ POLYGON_VERTICES s' = POLYGON_VERTICES s
  /\ canvas s' = canvas s
  /\ graph s' = graph s
  /\ imageData s' = imageData s
  /\ maxDifference s' = maxDifference s
  /\ length (polygons s') = length (polygons s).
Proof.
  revert s. induction fs as [|f fs IH]; intros s Hr; simpl in Hr.
  - injection Hr as <-. repeat split; reflexivity.
  - destruct (drawFrame f s) as [s1|e] eqn:Hd; [|discriminate]. simpl in Hr.
    destruct (drawFrame_keeps f s s1 Hd) as (H1 & H2 & H3 & H4 & H5 & H6 & H7).
    destruct (IH s1 Hr) as (K1 & K2 & K3 & K4 & K5 & K6 & K7).
    repeat split; congruence.
Qed.

Lemma getMatch_same_setup (f : Frame) (s s' : Fractal) :
  imageData s' = imageData s -> maxDifference s' = maxDifference s ->
  fst (getMatch f s') = fst (getMatch f s).
Proof. intros Hi Hm. rewrite !getMatch_value, Hi, Hm. reflexivity. Qed.

Lemma run_lastMatch_leb (fs : list Frame) (s s' : Fractal) :
  run fs s = Normal s' ->
  JS.is_nan (lastMatch s) = false ->
  JS.leb (lastMatch s) (lastMatch s') = true.
Proof.
  revert s. induction fs as [|f fs IH]; intros s Hr Hn; simpl in Hr.
  - injection Hr as <-. apply leb_refl, Hn.
  - destruct (drawFrame f s) as [s1|e] eqn:Hd; [|discriminate]. simpl in Hr.
    destruct (drawFrame_lastMatch f s s1 Hd Hn) as [Hle Hn1].
    apply (leb_trans _ _ _ Hle), (IH s1 Hr Hn1).
Qed.

(** X6.  Over any number of frames [lastMatch] does not fall and stays a
    number: the state after [j] frames has a [lastMatch] at least that of
    the state after [i <= j] frames. *)
Theorem lastMatch_never_falls (fs : list Frame) (s si sj : Fractal)
    (i j : nat) :
  JS.is_nan (lastMatch s) = false ->
  i <= j ->
  run (take i fs) s = Normal si ->
  run (take j fs) s = Normal sj ->
  JS.leb (lastMatch si) (lastMatch sj) = true
  /\ JS.is_nan (lastMatch sj) = false.
Proof.
  intros Hn Hij Hi Hj.
  pose proof (run_lastMatch_number _ _ _ Hi Hn) as Hni.
  pose proof (run_lastMatch_number _ _ _ Hj Hn) as Hnj.
  split; [|exact Hnj].
  replace (take j fs) with (take i fs ++ take (j - i) (drop i fs)) in Hj.
  - rewrite run_app, Hi in Hj. simpl in Hj.
    apply (run_lastMatch_leb _ _ _ Hj Hni).
  - rewrite take_take_drop. f_equal. lia.
Qed.

(** X7.  [lastMatch] is the best match seen: after a run it is at least
    the match of every frame of the run that had one, and it is the
    [lastMatch] the run began with or the match of one of its frames. *)
Theorem lastMatch_is_best_seen (fs : list Frame) (s s' : Fractal) :
  run fs s = Normal s' ->
  JS.is_nan (lastMatch s) = false ->
  (forall f, In f fs ->
     JS.is_nan (fst (getMatch f s)) = true
     \/ JS.leb (fst (getMatch f s)) (lastMatch s') = true)
  /\ (lastMatch s' = lastMatch s
      \/ exists f, In f fs /\ lastMatch s' = fst (getMatch f s)).
Proof.
  revert s. induction fs as [|f fs IH]; intros s Hr Hn; simpl in Hr.
  - injection Hr as <-. split; [intros f []|left; reflexivity].
  - destruct (drawFrame f s) as [s1|e] eqn:Hd; [|discriminate]. simpl in Hr.
    destruct (drawFrame_lastMatch f s s1 Hd Hn) as [Hle Hn1].
    destruct (drawFrame_keeps f s s1 Hd) as (_ & _ & _ & _ & Hi & Hm & _).
    destruct (IH s1 Hr Hn1) as [Hall Hex].
    pose proof (run_lastMatch_leb _ _ _ Hr Hn1) as Hrun.
    assert (Hstep : lastMatch s1
                    = if JS.ltb (lastMatch s) (fst (getMatch f s))
                      then fst (getMatch f s) else lastMatch s).
    { destruct (polygons s !! nextMutable s) as [poly|] eqn:Hp.
      - destruct (drawFrame_normal f s poly Hp)
          as (s2 & Hs2 & _ & _ & _ & _ & _ & _ & Hrest).
        rewrite Hd in Hs2. injection Hs2 as <-.
        destruct (JS.ltb (lastMatch s) (fst (getMatch f s)));
          destruct Hrest as (-> & _); reflexivity.
      - rewrite (drawFrame_throw f s Hp) in Hd. discriminate. }
    split.
    + intros g [<-|Hg].
      * destruct (JS.is_nan (fst (getMatch f s))) eqn:Hnan; [left; reflexivity|].
        right. apply (fun H => leb_trans _ _ _ H Hrun). rewrite Hstep.
        destruct (JS.ltb (lastMatch s) (fst (getMatch f s))) eqn:E.
        -- apply leb_refl, Hnan.
        -- apply not_ltb_leb; assumption.
      * rewrite <- (getMatch_same_setup g s s1 Hi Hm). apply Hall, Hg.
    + destruct Hex as [Heq|(g & Hg & Heq)].
      * rewrite Heq, Hstep.
        destruct (JS.ltb (lastMatch s) (fst (getMatch f s))).
        -- right. exists f. split; [left; reflexivity | reflexivity].
        -- left. reflexivity.
      * right. exists g. split; [right; exact Hg|].
        rewrite Heq. apply (getMatch_same_setup g s s1 Hi Hm).
Qed.

End Runs.

(** ** Cursor, counters, population and page *)

Section Bookkeeping.

Context {Polygon : Type} `{PolygonOps Polygon}.

Local Open Scope nat_scope.

(** X1.  Once started, every frame completes, and after [k] frames the
    cursor has moved [k] places round the population. *)
Theorem cursor_after_frames (fs : list Frame) (s : Fractal) :
  cursor_ok s ->
  exists s',
    run fs s = Normal s'
    /\ cursor_ok s'
    /\ nextMutable s' = (nextMutable s + length fs) mod POLYGON_COUNT s.
Proof.
  revert s. induction fs as [|f fs IH]; intros s Hok.
  - exists s. split; [reflexivity|]. split; [exact Hok|].
    simpl. rewrite Nat.add_0_r, Nat.mod_small; [reflexivity | apply Hok].
  - pose proof Hok as [Hl Hc].
    destruct (lookup_lt_is_Some_2 (polygons s) (nextMutable s)) as [poly Hp];
      [lia|].
    destruct (drawFrame_normal f s poly Hp)
      as (s1 & Hs1 & HN & _ & _ & _ & Hnext & _).
    destruct (drawFrame_cursor_ok f s Hok) as (s1' & Hs1' & Hok1).
    rewrite Hs1 in Hs1'. injection Hs1' as <-.
    destruct (IH s1 Hok1) as (s' & Hr & Hok' & Hcur).
    exists s'. simpl. rewrite Hs1. simpl.
    split; [exact Hr|]. split; [exact Hok'|].
    rewrite Hcur, HN, Hnext.
    replace (nextMutable s + S (length fs))
      with (S (nextMutable s) + length fs) by lia.
    destruct (POLYGON_COUNT s <=? S (nextMutable s)) eqn:E.
    + apply Nat.leb_le in E.
      replace (S (nextMutable s)) with (POLYGON_COUNT s) by lia.
      rewrite <- (Nat.Div0.add_mod_idemp_l (POLYGON_COUNT s)).
      rewrite Nat.Div0.mod_same. reflexivity.
    + reflexivity.
Qed.

Lemma incr_bounds (n : Z) : (n <= JS.incr n <= n + 1)%Z.
Proof. unfold JS.incr. destruct (n <? 2 ^ 53)%Z; lia. Qed.

(** X2.  [mutations] counts the frames of a run, and [breakthroughs]
    grows by at most one per frame and never falls; a [breakthroughs] that
    is at most [mutations] stays so. *)
Theorem counters_count_frames (fs : list Frame) (s s' : Fractal) :
  run fs s = Normal s' ->
  (mutations s + Z.of_nat (length fs) <= 2 ^ 53)%Z ->
  mutations s' = (mutations s + Z.of_nat (length fs))%Z
  /\ (breakthroughs s <= breakthroughs s'
      <= breakthroughs s + Z.of_nat (length fs))%Z
  /\ ((breakthroughs s <= mutations s)%Z ->
      (breakthroughs s' <= mutations s')%Z).
Proof.
  revert s. induction fs as [|f fs IH]; intros s Hr Hb; simpl in Hr.
  - injection Hr as <-. simpl. lia.
  - destruct (drawFrame f s) as [s1|e] eqn:Hd; [|discriminate]. simpl in Hr.
    assert (Hm : mutations s1 = (mutations s + 1)%Z
                 /\ (breakthroughs s <= breakthroughs s1
                     <= breakthroughs s + 1)%Z).
    { destruct (polygons s !! nextMutable s) as [poly|] eqn:Hp.
      - destruct (drawFrame_normal f s poly Hp)
          as (s2 & Hs2 & _ & _ & _ & _ & _ & Hmut & Hrest).
        rewrite Hd in Hs2. injection Hs2 as <-.
        split.
        + rewrite Hmut. apply incr_exact. simpl length in Hb. lia.
        + pose proof (incr_bounds (breakthroughs s)).
          destruct (JS.ltb (lastMatch s) (fst (getMatch f s)));
            destruct Hrest as (_ & -> & _); lia.
      - rewrite (drawFrame_throw f s Hp) in Hd. discriminate. }
    destruct Hm as [Hm1 Hb1]. simpl length in *.
    destruct (IH s1 Hr) as (Hm' & Hb' & _); [lia|].
    lia.
Qed.

(** X4.  A frame changes no polygon but the one under the cursor. *)
Theorem frame_touches_selected_only (f : Frame) (s s' : Fractal) (j : nat) :
  drawFrame f s = Normal s' ->
  j <> nextMutable s ->
  polygons s' !! j = polygons s !! j.
Proof.
  intros Hd Hj.
  destruct (polygons s !! nextMutable s) as [poly|] eqn:Hp.
  - destruct (drawFrame_normal f s poly Hp)
      as (s2 & Hs2 & _ & _ & _ & _ & _ & _ & Hrest).
    rewrite Hd in Hs2. injection Hs2 as <-.
    destruct (JS.ltb (lastMatch s) (fst (getMatch f s)));
      destruct Hrest as (_ & _ & ->);
      apply list_lookup_insert_ne; congruence.
  - rewrite (drawFrame_throw f s Hp) in Hd. discriminate.
Qed.

(** X5.  When [pop] undoes what [stash] and [mutate] did to the selected
    polygon, a rejected frame leaves the population, [lastMatch] and
    [breakthroughs] exactly as they were. *)
Theorem rejected_frame_restores (f : Frame) (s : Fractal) (poly : Polygon) :
  polygons s !! nextMutable s = Some poly ->
  JS.ltb (lastMatch s) (fst (getMatch f s)) = false ->
  pop (mutate (entropy f) (width (canvas s)) (height (canvas s)) (stash poly))
  = poly ->
  exists s',
    drawFrame f s = Normal s'
    /\ polygons s' = polygons s
    /\ lastMatch s' = lastMatch s
    /\ breakthroughs s' = breakthroughs s.
Proof.
  intros Hp Hrej Hpop.
  destruct (drawFrame_normal f s poly Hp)
    as (s' & Hs' & _ & _ & _ & _ & _ & _ & Hrest).
  rewrite Hrej, Hpop in Hrest. destruct Hrest as (Hl & Hb & Hps).
  exists s'. split; [exact Hs'|].
  rewrite Hps, (list_insert_id _ _ _ Hp). repeat split; assumption.
Qed.

Lemma drawFrame_page_in_step (f : Frame) (s s' : Fractal) :
  drawFrame f s = Normal s' -> page_in_step s -> page_in_step s'.
Proof.
  unfold drawFrame.
  destruct (polygons s !! nextMutable s) as [poly|]; [|discriminate].
  unfold getMatch, calculateDifference_on, page_in_step.
  destruct s as [N V cv ps c img lm md [sm sb su] mu br gr gp co]. simpl.
  destruct (calculateDifference img (canvasData f) (graphData f))
    as [r [dat|] [|]]; simpl;
    match goal with
    | |- context [JS.ltb lm ?x] => destruct (JS.ltb lm x)
    end;
    intros [= <-] (Hmu & Hbr & Hma); simpl;
    (split; [right; exists mu; split; reflexivity|]);
    first [ split; [right; exists br; split; reflexivity | right; reflexivity]
          | split; assumption ].
Qed.

(** X8.  In every state of a run the page is in step with the fields:
    the mutations and break elements show the value their counter had
    before its last increment, and the match element, once written,
    shows [lastMatch]. *)
Theorem page_in_step_run (n v : option nat) (fresh : nat -> Polygon)
    (img : HTMLImageElement) (fs : list Frame) (s' : Fractal) :
  run fs (match_ fresh img (constructor n v)) = Normal s' ->
  page_in_step s'.
Proof.
  assert (Hgen : forall fs (s : Fractal),
             page_in_step s -> run fs s = Normal s' -> page_in_step s').
  { clear fs. intros fs. induction fs as [|f fs IH]; intros s Hs Hr;
      simpl in Hr.
    - injection Hr as <-. exact Hs.
    - destruct (drawFrame f s) as [s1|e] eqn:Hd; [|discriminate].
      simpl in Hr. apply (IH s1); [|exact Hr].
      apply (drawFrame_page_in_step f s s1 Hd Hs). }
  apply Hgen. unfold page_in_step, one_behind. simpl.
  repeat split; left; try split; reflexivity.
Qed.

Lemma warned_mismatch (a b g : Uint8ClampedArray) :
  warned (calculateDifference a b g) = negb (length a =? length b).
Proof.
  unfold calculateDifference.
  destruct (negb (length a =? length b)); [reflexivity|].
  destruct (for_loop a b 0 (JS.Int 0, g)). reflexivity.
Qed.

(** X16.  The console gains one warning for each frame whose stage
    differs in length from the target, and nothing else. *)
Theorem warnings_count_mismatches (fs : list Frame) (s s' : Fractal) :
  run fs s = Normal s' ->
  console s'
  = console s
    ++ repeat "Invalid data comparison"%string
         (length (List.filter (mismatched (imageData s)) fs)).
Proof.
  revert s. induction fs as [|f fs IH]; intros s Hr; simpl in Hr.
  - injection Hr as <-. simpl. rewrite app_nil_r. reflexivity.
  - destruct (drawFrame f s) as [s1|e] eqn:Hd; [|discriminate]. simpl in Hr.
    destruct (drawFrame_page f s s1 Hd) as [Hco _].
    destruct (drawFrame_keeps f s s1 Hd) as (_ & _ & _ & _ & Hi & _).
    rewrite warned_mismatch in Hco.
    rewrite (IH s1 Hr), Hi, Hco. simpl List.filter.
    unfold mismatched at 2.
    destruct (negb (length (imageData s) =? length (canvasData f))).
    + simpl. rewrite <- app_assoc. reflexivity.
    + reflexivity.
Qed.

End Bookkeeping.

(** ** More of the scorer *)

Section Scorer2.

Local Open Scope nat_scope.

Lemma abs_minus_sym (x y : JS.num) :
  JS.Math_abs (JS.minus x y) = JS.Math_abs (JS.minus y x).
Proof. destruct x, y; simpl; try reflexivity. f_equal. lia. Qed.

Lemma body_fst_sym (a b : Uint8ClampedArray) (i : nat) (d : JS.num)
    (dat dat' : Uint8ClampedArray) :
  fst (body a b i (d, dat)) = fst (body b a i (d, dat')).
Proof.
  unfold body. cbv beta iota. unfold fst.
  rewrite (abs_minus_sym (get a i)), (abs_minus_sym (get a (i + 1))),
    (abs_minus_sym (get a (i + 2))).
  reflexivity.
Qed.

Lemma for_loop_fst_sym (a b : Uint8ClampedArray) :
  length a = length b ->
  forall m i d dat dat',
    length b - i <= m ->
    fst (for_loop a b i (d, dat)) = fst (for_loop b a i (d, dat')).
Proof.
  intros Hlen m.
  induction m as [|m IH]; intros i d dat dat' Hm;
    rewrite (for_loop_eq a b), (for_loop_eq b a), Hlen;
    destruct (lt_dec i (length b)) as [Hi|Hi]; try reflexivity; try lia.
  pose proof (body_fst_sym a b i d dat dat') as Hb.
  destruct (body a b i (d, dat)) as [d1 dat1].
  destruct (body b a i (d, dat')) as [d2 dat2].
  simpl in Hb. subst d2. apply IH. lia.
Qed.

(** X9.  The difference does not depend on which of the two buffers is
    the target and which the stage, whatever their lengths. *)
Theorem difference_symmetric (a b g g' : Uint8ClampedArray) :
  returned (calculateDifference a b g) = returned (calculateDifference b a g').
Proof.
  destruct (decide (length a = length b)) as [He|Hne].
  - rewrite !calculateDifference_equal by congruence. simpl.
    apply (for_loop_fst_sym a b He (length b)). lia.
  - rewrite !calculateDifference_mismatch by congruence. reflexivity.
Qed.

Lemma sum_pixels_bound (f : nat -> Z) (c : Z) (n : nat) :
  forall k, (forall p, k <= p < k + n -> (0 <= f p <= c)%Z) ->
    (0 <= sum_pixels f k n <= Z.of_nat n * c)%Z.
Proof.
  induction n as [|n IH]; intros k Hf; simpl sum_pixels; [lia|].
  specialize (IH (S k) ltac:(intros p Hp; apply Hf; lia)).
  specialize (Hf k ltac:(lia)). lia.
Qed.

(** X10.  Between buffers of [n] pixels of bytes the difference is an
    integer between 0 and [n * 3 * 255], the value of [maxDifference] for
    an image of [n] pixels. *)
Theorem difference_at_most_max (a b g : Uint8ClampedArray) (n : nat) :
  rgba_buffer n a ->
  rgba_buffer n b ->
  exists d,
    returned (calculateDifference a b g) = JS.Int d
    /\ (0 <= d <= Z.of_nat n * 3 * 255)%Z.
Proof.
  intros [La Ba] [Lb Bb].
  exists (pixelDifference a b).
  split; [apply (calculateDifference_returned a b g n La Lb)|].
  unfold pixelDifference. rewrite La.
  replace (4 * n / 4) with n by (rewrite Nat.mul_comm, Nat.div_mul; lia).
  pose proof (sum_pixels_bound (pixel_difference a b) 765 n 0) as Hs.
  destruct Hs as [H0 H1]; [|lia].
  intros p Hp. apply pixel_difference_range; try assumption; lia.
Qed.

(** X11.  What is put on the graph is decided by the target and the
    stage alone: nothing of what the graph showed before remains. *)
Theorem overlay_forgets_history (a b g g' : Uint8ClampedArray) (n : nat) :
  rgba_buffer n a ->
  rgba_buffer n b ->
  length g = 4 * n ->
  length g' = 4 * n ->
  put (calculateDifference a b g) = put (calculateDifference a b g').
Proof.
  intros Ha Hb Hg Hg'.
  pose proof Ha as [La _]. pose proof Hb as [Lb _].
  rewrite !calculateDifference_equal by lia. simpl. f_equal.
  change 0 with (4 * 0).
  destruct (for_loop_dat a b n Ha Hb n 0 0%Z g ltac:(lia) Hg)
    as (Hl1 & _ & Hp1).
  destruct (for_loop_dat a b n Ha Hb n 0 0%Z g' ltac:(lia) Hg')
    as (Hl2 & _ & Hp2).
  apply list_eq. intros j.
  destruct (lt_dec j (4 * n)) as [Hj|Hj].
  - pose proof (Nat.div_mod_eq j 4) as Hdm.
    pose proof (Nat.mod_upper_bound j 4 ltac:(lia)) as Hub.
    destruct (Hp1 (j / 4) ltac:(lia)) as (A0 & A1 & A2 & A3).
    destruct (Hp2 (j / 4) ltac:(lia)) as (B0 & B1 & B2 & B3).
    destruct (j mod 4) as [|[|[|[|r]]]] eqn:Er; try lia.
    + replace j with (4 * (j / 4)) by lia. congruence.
    + replace j with (4 * (j / 4) + 1) by lia. congruence.
    + replace j with (4 * (j / 4) + 2) by lia. congruence.
    + replace j with (4 * (j / 4) + 3) by lia. congruence.
  - rewrite !lookup_ge_None_2 by lia. reflexivity.
Qed.

(** X12.  The alpha byte put on the graph is graded by the difference of
    its pixel: it lies in [[0, 255]], is 255 exactly for a pixel at most 1
    away from the target, 0 exactly for a pixel at least 764 away, and a
    pixel further from the target never gets a larger alpha. *)
Theorem overlay_alpha_graded (a b g : Uint8ClampedArray) (n : nat) :
  rgba_buffer n a ->
  rgba_buffer n b ->
  length g = 4 * n ->
  exists dat,
    put (calculateDifference a b g) = Some dat
    /\ forall p, p < n ->
         exists ap,
           dat !! (4 * p + 3) = Some ap
           /\ (0 <= ap <= 255)%Z
           /\ (ap = 255%Z <-> (pixel_difference a b p <= 1)%Z)
           /\ (ap = 0%Z <-> (764 <= pixel_difference a b p)%Z)
           /\ forall q aq,
                q < n ->
                dat !! (4 * q + 3) = Some aq ->
                (pixel_difference a b p <= pixel_difference a b q)%Z ->
                (aq <= ap)%Z.
Proof.
  intros Ha Hb Hg.
  pose proof Ha as [La Ba]. pose proof Hb as [Lb Bb].
  rewrite calculateDifference_equal by lia. simpl put.
  eexists. split; [reflexivity|].
  destruct (for_loop_dat a b n Ha Hb n 0 0%Z g ltac:(lia) Hg)
    as (_ & _ & Hpix).
  change (4 * 0) with 0 in Hpix.
  intros p Hp.
  destruct (Hpix p ltac:(lia)) as (_ & _ & _ & H3).
  pose proof (pixel_difference_range a b p Ba Bb ltac:(lia) ltac:(lia)) as Rp.
  exists (third_rounded (765 - pixel_difference a b p)).
  split; [exact H3|].
  unfold third_rounded.
  repeat split; try (Z.to_euclidean_division_equations; lia).
  intros q aq Hq Haq Hle.
  destruct (Hpix q ltac:(lia)) as (_ & _ & _ & Q3).
  rewrite Q3 in Haq. injection Haq as <-.
  unfold third_rounded. Z.to_euclidean_division_equations. lia.
Qed.

End Scorer2.

(** ** Painting *)

Section Paint.

Context {Polygon : Type} `{PolygonOps Polygon} `{PolygonView Polygon}.

Local Open Scope nat_scope.

Lemma lineTo_loop_eq (p : Polygon) (n i : nat) :
  lineTo_loop p n i
  = if lt_dec i n
    then lineTo (getPointArr p i) :: lineTo_loop p n (i + 1) else [].
Proof.
  rewrite lineTo_loop_equation_1. destruct (lt_dec i n); reflexivity.
Qed.

Lemma lineTo_loop_seq (p : Polygon) (n : nat) :
  forall m i, n - i = m ->
    lineTo_loop p n i = map (fun k => lineTo (getPointArr p k)) (seq i m).
Proof.
  intros m. induction m as [|m IH]; intros i Hm; rewrite lineTo_loop_eq.
  - destruct (lt_dec i n); [lia | reflexivity].
  - destruct (lt_dec i n); [|lia].
    simpl. f_equal. replace (i + 1) with (S i) by lia. apply IH. lia.
Qed.

Lemma path_points_app (xs ys : list (call PointArr)) :
  path_points (xs ++ ys) = path_points xs ++ path_points ys.
Proof.
  induction xs as [|[] xs IH]; simpl; rewrite ?IH; reflexivity.
Qed.

Lemma fill_styles_app (xs ys : list (call PointArr)) :
  fill_styles (xs ++ ys) = fill_styles xs ++ fill_styles ys.
Proof.
  induction xs as [|[] xs IH]; simpl; rewrite ?IH; reflexivity.
Qed.

Lemma path_points_lines (p : Polygon) (ks : list nat) :
  path_points (map (fun k => lineTo (getPointArr p k)) ks)
  = map (getPointArr p) ks.
Proof. induction ks as [|k ks IH]; simpl; rewrite ?IH; reflexivity. Qed.

Lemma fill_styles_lines (p : Polygon) (ks : list nat) :
  fill_styles (map (fun k => lineTo (getPointArr p k)) ks) = [].
Proof. induction ks as [|k ks IH]; simpl; rewrite ?IH; reflexivity. Qed.

Lemma drawPolygon_calls (p : Polygon) :
  drawPolygon p
  = [beginPath; moveTo (getPointArr p 0)]
    ++ map (fun k => lineTo (getPointArr p k)) (seq 1 (points_length p - 1))
    ++ [closePath; set_fillStyle (getColourString p); fill].
Proof.
  unfold drawPolygon.
  rewrite (lineTo_loop_seq p (points_length p) (points_length p - 1) 1)
    by reflexivity.
  reflexivity.
Qed.

Lemma path_points_drawPolygon (p : Polygon) :
  path_points (drawPolygon p)
  = map (getPointArr p) (seq 0 (Nat.max 1 (points_length p))).
Proof.
  rewrite drawPolygon_calls, !path_points_app, path_points_lines. simpl.
  rewrite app_nil_r.
  replace (Nat.max 1 (points_length p)) with (S (points_length p - 1))
    by lia.
  reflexivity.
Qed.

Lemma fill_styles_drawPolygon (p : Polygon) :
  fill_styles (drawPolygon p) = [getColourString p].
Proof.
  rewrite drawPolygon_calls, !fill_styles_app, fill_styles_lines.
  reflexivity.
Qed.

(** X14.  [drawPolygon] traces one closed path and fills it once with the
    colour of the polygon: it moves to point 0 and draws a line to each
    of the points 1 to [points - 1] in order, so every point is visited
    once; of a polygon without points it still asks for point 0. *)
Theorem drawPolygon_path (p : Polygon) :
  drawPolygon p
  = [beginPath; moveTo (getPointArr p 0)]
    ++ map (fun k => lineTo (getPointArr p k)) (seq 1 (points_length p - 1))
    ++ [closePath; set_fillStyle (getColourString p); fill]
  /\ path_points (drawPolygon p)
     = map (getPointArr p) (seq 0 (Nat.max 1 (points_length p)))
  /\ fill_styles (drawPolygon p) = [getColourString p].
Proof.
  split; [apply drawPolygon_calls|].
  split; [apply path_points_drawPolygon | apply fill_styles_drawPolygon].
Qed.

Lemma path_points_flat_map (ps : list Polygon) :
  path_points (flat_map drawPolygon ps)
  = flat_map (fun p => map (getPointArr p)
                         (seq 0 (Nat.max 1 (points_length p)))) ps.
Proof.
  induction ps as [|p ps IH]; [reflexivity|].
  cbn [flat_map].
  rewrite path_points_app, IH, path_points_drawPolygon. reflexivity.
Qed.

Lemma fill_styles_flat_map (ps : list Polygon) :
  fill_styles (flat_map drawPolygon ps) = map getColourString ps.
Proof.
  induction ps as [|p ps IH]; [reflexivity|].
  cbn [flat_map map].
  rewrite fill_styles_app, IH, fill_styles_drawPolygon. reflexivity.
Qed.

(** X15.  A frame whose polygon exists clears the stage to white and then
    paints every polygon of the population once, in the order of the
    array, the selected polygon as [mutate] left it. *)
Theorem stage_painted_in_order (f : Frame) (s : Fractal) (poly : Polygon) :
  polygons s !! nextMutable s = Some poly ->
  let painted :=
    <[nextMutable s :=
        mutate (entropy f) (width (canvas s)) (height (canvas s))
          (stash poly)]> (polygons s) in
  take 2 (stage_calls f s)
  = [set_fillStyle "#fff"%string;
     fillRect 0 0 (width (canvas s)) (height (canvas s))]
  /\ drop 2 (stage_calls f s) = flat_map drawPolygon painted
  /\ fill_styles (stage_calls f s)
     = "#fff"%string :: map getColourString painted
  /\ path_points (stage_calls f s)
     = flat_map (fun p => map (getPointArr p)
                            (seq 0 (Nat.max 1 (points_length p)))) painted.
Proof.
  intros Hp painted. unfold stage_calls. rewrite Hp. fold painted.
  split; [reflexivity|]. split; [reflexivity|].
  rewrite fill_styles_app, path_points_app.
  rewrite fill_styles_flat_map, path_points_flat_map.
  split; reflexivity.
Qed.

(** X13.  With [polygons = 0] the population is empty: every frame clears
    the stage and then throws at [poly.stash()], so the run throws. *)
Theorem empty_population_throws (v : option nat) (fresh : nat -> Polygon)
    (img : HTMLImageElement) (f : Frame) (fs : list Frame) :
  let s0 := match_ fresh img (constructor (Some 0) v) in
  polygons s0 = []
  /\ run (f :: fs) s0 = Throw TypeError
  /\ stage_calls f s0
     = [set_fillStyle "#fff"%string;
        fillRect 0 0 (img_width img) (img_height img)].
Proof.
  intros s0. split; [reflexivity|]. split; reflexivity.
Qed.

End Paint.

(** ** The further properties on the small run *)

Section Instances2.

Import Example Example2.

#[local] Existing Instance SpecPolygon.ops.
#[local] Existing Instance SpecPolygonView.view.

Local Open Scope nat_scope.

Lemma cursor_after_frames_witness :
  cursor_ok after_near
  /\ exists s',
       run [far; resized; near] after_near = Normal s'
       /\ nextMutable s' = 0.
Proof.
  assert (H1 : cursor_ok after_near) by (split; simpl; lia).
  split; [exact H1|].
  destruct (cursor_after_frames [far; resized; near] after_near H1)
    as (s' & Hr & _ & Hc).
  exists s'. split; [exact Hr | exact Hc].
Defined.

Lemma counters_count_frames_witness :
  run [near; far; resized] start = Normal after_three
  /\ (mutations start + Z.of_nat (length [near; far; resized]) <= 2 ^ 53)%Z
  /\ mutations after_three = 3%Z
  /\ (0 <= breakthroughs after_three <= 3)%Z.
Proof.
  assert (H1 : run [near; far; resized] start = Normal after_three)
    by (vm_compute; reflexivity).
  assert (H2 : (mutations start + Z.of_nat (length [near; far; resized])
                <= 2 ^ 53)%Z) by (vm_compute; discriminate).
  repeat (split; [assumption|]).
  destruct (counters_count_frames [near; far; resized] start after_three
              H1 H2) as (Hm & Hb & _).
  split; [exact Hm | exact Hb].
Defined.

Lemma run_keeps_setup_witness :
  run [near; far; resized] start = Normal after_three
  /\ imageData after_three = imageData start
  /\ maxDifference after_three = maxDifference start
  /\ length (polygons after_three) = length (polygons start).
Proof.
  assert (H1 : run [near; far; resized] start = Normal after_three)
    by (vm_compute; reflexivity).
  split; [exact H1|].
  destruct (run_keeps_setup [near; far; resized] start after_three H1)
    as (_ & _ & _ & _ & Hi & Hm & Hl).
  split; [exact Hi|]. split; [exact Hm | exact Hl].
Defined.

Lemma frame_touches_selected_only_witness :
  drawFrame far after_near = Normal after_two
  /\ 0 <> nextMutable after_near
  /\ polygons after_two !! 0 = polygons after_near !! 0.
Proof.
  assert (H1 : drawFrame far after_near = Normal after_two)
    by (vm_compute; reflexivity).
  assert (H2 : 0 <> nextMutable after_near) by (simpl; lia).
  repeat (split; [assumption|]).
  exact (frame_touches_selected_only far after_near after_two 0 H1 H2).
Defined.

Lemma rejected_frame_restores_witness :
  polygons after_three !! nextMutable after_three = Some popped
  /\ JS.ltb (lastMatch after_three) (fst (getMatch far after_three)) = false
  /\ SpecPolygon.pop
       (SpecPolygon.mutate (entropy far) (width (canvas after_three))
          (height (canvas after_three)) (SpecPolygon.stash popped))
     = popped
  /\ exists s',
       drawFrame far after_three = Normal s'
       /\ polygons s' = polygons after_three.
Proof.
  assert (H1 : polygons after_three !! nextMutable after_three = Some popped)
    by reflexivity.
  assert (H2 : JS.ltb (lastMatch after_three) (fst (getMatch far after_three))
               = false) by (vm_compute; reflexivity).
  assert (H3 : SpecPolygon.pop
                 (SpecPolygon.mutate (entropy far) (width (canvas after_three))
                    (height (canvas after_three)) (SpecPolygon.stash popped))
               = popped) by (vm_compute; reflexivity).
  repeat (split; [assumption|]).
  destruct (rejected_frame_restores far after_three popped H1 H2 H3)
    as (s' & Hd & Hps & _).
  exists s'. split; [exact Hd | exact Hps].
Defined.

Lemma lastMatch_never_falls_witness :
  JS.is_nan (lastMatch start) = false
  /\ 1 <= 3
  /\ run (take 1 frames) start = Normal after_near
  /\ run (take 3 frames) start = Normal after_three
  /\ JS.leb (lastMatch after_near) (lastMatch after_three) = true.
Proof.
  assert (H1 : JS.is_nan (lastMatch start) = false) by reflexivity.
  assert (H2 : 1 <= 3) by lia.
  assert (H3 : run (take 1 frames) start = Normal after_near)
    by (vm_compute; reflexivity).
  assert (H4 : run (take 3 frames) start = Normal after_three)
    by (vm_compute; reflexivity).
  repeat (split; [assumption|]).
  exact (proj1 (lastMatch_never_falls frames start after_near after_three
                  1 3 H1 H2 H3 H4)).
Defined.

Lemma lastMatch_is_best_seen_witness :
  run [near; far; resized] start = Normal after_three
  /\ JS.is_nan (lastMatch start) = false
  /\ (JS.is_nan (fst (getMatch far start)) = true
      \/ JS.leb (fst (getMatch far start)) (lastMatch after_three) = true).
Proof.
  assert (H1 : run [near; far; resized] start = Normal after_three)
    by (vm_compute; reflexivity).
  assert (H2 : JS.is_nan (lastMatch start) = false) by reflexivity.
  repeat (split; [assumption|]).
  destruct (lastMatch_is_best_seen [near; far; resized] start after_three
              H1 H2) as [Hall _].
  apply Hall. right. left. reflexivity.
Defined.

Lemma page_in_step_run_witness :
  run [near; far; resized] (match_ triangle img (constructor (Some 2) None))
  = Normal after_three
  /\ page_in_step after_three.
Proof.
  assert (H1 : run [near; far; resized]
                 (match_ triangle img (constructor (Some 2) None))
               = Normal after_three) by (vm_compute; reflexivity).
  split; [exact H1|].
  exact (page_in_step_run (Some 2) None triangle img [near; far; resized]
           after_three H1).
Defined.

Lemma warnings_count_mismatches_witness :
  run [near; far; resized] start = Normal after_three
  /\ console after_three = ["Invalid data comparison"%string].
Proof.
  assert (H1 : run [near; far; resized] start = Normal after_three)
    by (vm_compute; reflexivity).
  split; [exact H1|].
  exact (warnings_count_mismatches [near; far; resized] start after_three H1).
Defined.

Lemma difference_at_most_max_witness :
  rgba_buffer 2 target2
  /\ rgba_buffer 2 stage2
  /\ exists d,
       returned (calculateDifference target2 stage2 graph2) = JS.Int d
       /\ (0 <= d <= 1530)%Z.
Proof.
  assert (H1 : rgba_buffer 2 target2).
  { split; [reflexivity|]. unfold is_bytes, target2. repeat constructor; lia. }
  assert (H2 : rgba_buffer 2 stage2).
  { split; [reflexivity|]. unfold is_bytes, stage2. repeat constructor; lia. }
  repeat (split; [assumption|]).
  exact (difference_at_most_max target2 stage2 graph2 2 H1 H2).
Defined.

Lemma overlay_forgets_history_witness :
  rgba_buffer 2 target2
  /\ rgba_buffer 2 stage2
  /\ length graph2 = 4 * 2
  /\ length black = 4 * 2
  /\ put (calculateDifference target2 stage2 graph2)
     = put (calculateDifference target2 stage2 black).
Proof.
  assert (H1 : rgba_buffer 2 target2).
  { split; [reflexivity|]. unfold is_bytes, target2. repeat constructor; lia. }
  assert (H2 : rgba_buffer 2 stage2).
  { split; [reflexivity|]. unfold is_bytes, stage2. repeat constructor; lia. }
  assert (H3 : length graph2 = 4 * 2) by reflexivity.
  assert (H4 : length black = 4 * 2) by reflexivity.
  repeat (split; [assumption|]).
  exact (overlay_forgets_history target2 stage2 graph2 black 2 H1 H2 H3 H4).
Defined.

Lemma overlay_alpha_graded_witness :
  rgba_buffer 2 target2
  /\ rgba_buffer 2 stage2
  /\ length graph2 = 4 * 2
  /\ exists dat,
       put (calculateDifference target2 stage2 graph2) = Some dat
       /\ exists a0, dat !! 3 = Some a0 /\ a0 = 255%Z.
Proof.
  assert (H1 : rgba_buffer 2 target2).
  { split; [reflexivity|]. unfold is_bytes, target2. repeat constructor; lia. }
  assert (H2 : rgba_buffer 2 stage2).
  { split; [reflexivity|]. unfold is_bytes, stage2. repeat constructor; lia. }
  assert (H3 : length graph2 = 4 * 2) by reflexivity.
  repeat (split; [assumption|]).
  destruct (overlay_alpha_graded target2 stage2 graph2 2 H1 H2 H3)
    as (dat & Hput & Hpix).
  exists dat. split; [exact Hput|].
  destruct (Hpix 0 ltac:(lia)) as (a0 & Ha0 & _ & H255 & _).
  exists a0. split; [exact Ha0|].
  apply H255. vm_compute. discriminate.
Defined.

Lemma stage_painted_in_order_witness :
  polygons start !! nextMutable start = Some (triangle 0)
  /\ fill_styles (stage_calls near start)
     = ["#fff"; "rgba(9,20,30,1)"; "rgba(255,0,0,1)"]%string.
Proof.
  assert (H1 : polygons start !! nextMutable start = Some (triangle 0))
    by reflexivity.
  split; [exact H1|].
  destruct (stage_painted_in_order near start (triangle 0) H1)
    as (_ & _ & Hf & _).
  exact Hf.
Defined.

End Instances2.

(** ** A second image, and a perfect score *)

Section Rematch.

Context {Polygon : Type} `{PolygonOps Polygon}.

Local Open Scope nat_scope.

(** X17.  [match] on an object that has already searched does not start
    afresh: it replaces the target, the sizes of both canvases,
    [maxDifference] and the whole population, but [lastMatch], the
    counters and the cursor carry over, so that [lastMatch] does not fall
    across the change of image. *)
Theorem rematch_keeps_search (fresh : nat -> Polygon)
    (img : HTMLImageElement) (s : Fractal) (fs : list Frame) (s' : Fractal) :
  JS.is_nan (lastMatch s) = false ->
  run fs (match_ fresh img s) = Normal s' ->
  let s1 := match_ fresh img s in
  imageData s1 = img_data img
  /\ canvas s1 = {| width := img_width img; height := img_height img |}
  /\ graph s1 = {| width := img_width img; height := img_height img |}
  /\ maxDifference s1
     = JS.mul
         (JS.mul (JS.mul (JS.of_Z (img_width img)) (JS.of_Z (img_height img)))
                 (JS.of_Z 3))
         (JS.of_Z 255)
  /\ polygons s1 = map fresh (seq 0 (POLYGON_COUNT s))
  /\ length (polygons s1) = POLYGON_COUNT s
  /\ lastMatch s1 = lastMatch s
  /\ mutations s1 = mutations s
  /\ breakthroughs s1 = breakthroughs s
  /\ nextMutable s1 = nextMutable s
  /\ JS.leb (lastMatch s) (lastMatch s') = true.
Proof.
  intros Hn Hr s1.
  assert (Hps : polygons s1 = map fresh (seq 0 (POLYGON_COUNT s)))
    by reflexivity.
  assert (Hlen : length (polygons s1) = POLYGON_COUNT s)
    by (rewrite Hps, length_map, length_seq; reflexivity).
  repeat (split; [first [exact Hlen | reflexivity]|]).
  apply (run_lastMatch_leb fs s1 s' Hr). exact Hn.
Qed.

End Rematch.

Section Perfect.

Local Open Scope nat_scope.

Lemma sum_pixels_zero (f : nat -> Z) (n : nat) :
  forall k, (forall p, (0 <= f p)%Z) -> sum_pixels f k n = 0%Z ->
    forall p, k <= p < k + n -> f p = 0%Z.
Proof.
  induction n as [|n IH]; intros k Hf Hs p Hp; [lia|].
  simpl in Hs.
  pose proof (sum_pixels_nonneg f n (S k) Hf) as Hrest.
  pose proof (Hf k) as Hk.
  destruct (decide (p = k)) as [->|Hne]; [lia|].
  apply (IH (S k) Hf); lia.
Qed.

Lemma lookup_nth (a : Uint8ClampedArray) (j : nat) :
  j < length a -> a !! j = Some (nth j a 0%Z).
Proof.
  intros Hj. destruct (lookup_lt_is_Some_2 a j Hj) as [x Hx].
  rewrite Hx, (nth_lookup_Some _ _ 0%Z _ Hx). reflexivity.
Qed.

(** X18.  The difference of two buffers of the same size is 0 exactly
    when they agree on every red, green and blue byte; the alpha bytes
    are free. *)
Theorem zero_difference_iff_same_rgb (a b g : Uint8ClampedArray) (n : nat) :
  length a = 4 * n ->
  length b = 4 * n ->
  returned (calculateDifference a b g) = JS.Int 0
  <-> forall j, j < 4 * n -> j mod 4 <> 3 -> a !! j = b !! j.
Proof.
  intros La Lb.
  rewrite (calculateDifference_returned a b g n La Lb).
  unfold pixelDifference. rewrite La.
  replace (4 * n / 4) with n by (rewrite Nat.mul_comm, Nat.div_mul; lia).
  split.
  - intros [= Hz] j Hj Hm.
    pose proof (sum_pixels_zero (pixel_difference a b) n 0
                  (pixel_difference_nonneg a b) Hz (j / 4)) as Hp.
    pose proof (Nat.div_mod_eq j 4) as Hdm.
    pose proof (Nat.mod_upper_bound j 4 ltac:(lia)) as Hub.
    specialize (Hp ltac:(lia)).
    unfold pixel_difference, channel_difference in Hp.
    rewrite !lookup_nth by lia. f_equal.
    destruct (j mod 4) as [|[|[|r]]] eqn:Er; try lia.
    + replace j with (4 * (j / 4)) by lia. lia.
    + replace j with (4 * (j / 4) + 1) by lia. lia.
    + replace j with (4 * (j / 4) + 2) by lia. lia.
  - intros Hsame. f_equal.
    rewrite (sum_pixels_const _ 0%Z); [lia|].
    intros p Hp. unfold pixel_difference, channel_difference.
    assert (Hc : forall c, c < 3 ->
                 nth (4 * p + c) a 0%Z = nth (4 * p + c) b 0%Z).
    { intros c Hc. rewrite !nth_lookup.
      rewrite (Hsame (4 * p + c)); [reflexivity | lia |].
      replace (4 * p + c) with (c + p * 4) by lia.
      rewrite Nat.Div0.mod_add, Nat.mod_small by lia. lia. }
    pose proof (Hc 0 ltac:(lia)) as H0. rewrite Nat.add_0_r in H0.
    rewrite H0, (Hc 1), (Hc 2) by lia. lia.
Qed.

End Perfect.

Section Instances3.

Import Example Example2.

#[local] Existing Instance SpecPolygon.ops.

Local Open Scope nat_scope.

Lemma rematch_keeps_search_witness :
  JS.is_nan (lastMatch after_near) = false
  /\ run [white_stage] (match_ triangle black_img after_near)
     = Normal after_rematch
  /\ canvas (match_ triangle black_img after_near)
     = {| width := 1; height := 2 |}
  /\ lastMatch (match_ triangle black_img after_near) = lastMatch after_near
  /\ JS.leb (lastMatch after_near) (lastMatch after_rematch) = true.
Proof.
  assert (H1 : JS.is_nan (lastMatch after_near) = false) by reflexivity.
  assert (H2 : run [white_stage] (match_ triangle black_img after_near)
               = Normal after_rematch) by (vm_compute; reflexivity).
  repeat (split; [assumption|]).
  destruct (rematch_keeps_search triangle black_img after_near [white_stage]
              after_rematch H1 H2)
    as (_ & Hcv & _ & _ & _ & _ & Hl & _ & _ & _ & Hle).
  split; [exact Hcv|]. split; [exact Hl | exact Hle].
Defined.

Lemma zero_difference_iff_same_rgb_witness :
  length target2 = 4 * 2
  /\ length stage2 = 4 * 2
  /\ (returned (calculateDifference target2 stage2 graph2) = JS.Int 0
      <-> forall j, j < 4 * 2 -> j mod 4 <> 3 -> target2 !! j = stage2 !! j).
Proof.
  assert (H1 : length target2 = 4 * 2) by reflexivity.
  assert (H2 : length stage2 = 4 * 2) by reflexivity.
  repeat (split; [assumption|]).
  exact (zero_difference_iff_same_rgb target2 stage2 graph2 2 H1 H2).
Defined.

End Instances3.
